(** * Usage-driven partition recommendation ([partition.py])

    A shallow embedding of the decision logic of [partition.py]: the
    aggregation of column usage per clause role (Step 3 of [main]), the
    cardinality lookup (Step 4 and [get_column_cardinality]), the left
    merge (Step 5), the strategy choice (Step 6), the rendering of the
    partition specification ([generate_partition_spec], Step 7) and the
    final report (Step 8).

    Steps 1 and 2 (download of the log from S3, JSON decoding and SQL
    parsing by [sql_metadata]) are the inputs of the model: [main] takes
    the list of the per-query dictionaries that [extract_columns_metadata]
    returns.  The answers of the query engine to [subprocess.run] and
    Python's [int] are the fields of the class [Runtime]; a computation
    returns, with its value, the commands it ran and the lines it printed.

    Conventions.  Counts of references are [nat]; cardinalities are [Z],
    as [int] may return any integer.  A dictionary whose iteration order
    matters (a [Counter]) is an association list in insertion order; the
    dictionary [cardinality], which is only looked up, is a [gmap].  A
    missing value of a data frame (NaN) is [None]. *)

From Stdlib Require Import ZArith Ascii String List.
From stdpp Require Import gmap strings list fin_maps.

Local Open Scope Z_scope.
Local Open Scope nat_scope.

(** ** Configuration (module-level constants of the script) *)

Definition TABLE_NAME : string := "my_catalog.my_schema.my_table".
Definition HIGH_CARDINALITY_THRESHOLD : Z := 100000%Z.
Definition LOW_CARDINALITY_THRESHOLD : Z := 1000%Z.

(** ** Data model *)

(** The dictionary returned by [extract_columns_metadata]: one list of
    column names per clause role, in the order of the references. *)
Record ColumnUsageRecord := {
  select_cols : list string;     (* cols['select']   *)
  where_cols : list string;      (* cols['where']    *)
  join_cols : list string;       (* cols['join']     *)
  group_by_cols : list string;   (* cols['group_by'] *)
  order_by_cols : list string    (* cols['order_by'] *)
}.

(** [collections.Counter]: a dictionary from element to count.  A Python
    dictionary iterates in insertion order and the order of the keys
    decides the order of the rows of [usage_stats], so a counter is an
    association list, oldest key first, each key at most once. *)
Definition Counter := list (string * nat).

(** [c[elem] = c.get(elem, 0) + 1]: an existing key keeps its place, a new
    key goes to the end. *)
Fixpoint counter_incr (elem : string) (c : Counter) : Counter :=
  match c with
  | [] => [(elem, 1)]
  | (k, n) :: c' =>
      if decide (k = elem) then (k, S n) :: c' else (k, n) :: counter_incr elem c'
  end.

(** [Counter.update(iterable)]: one increment per element of the iterable. *)
Definition counter_update (c : Counter) (iterable : list string) : Counter :=
  fold_left (fun acc elem => counter_incr elem acc) iterable c.

Definition counter_keys (c : Counter) : list string := c.*1.

(** [c.get(k)]: [None] where the data frame constructor puts NaN. *)
Fixpoint counter_get (c : Counter) (k : string) : option nat :=
  match c with
  | [] => None
  | (k', n) :: c' => if decide (k' = k) then Some n else counter_get c' k
  end.

(** The five counters of Step 3. *)
Record Counters := {
  select_counter : Counter;
  where_counter : Counter;
  join_counter : Counter;
  group_by_counter : Counter;
  order_by_counter : Counter
}.

Definition empty_counters : Counters :=
  {| select_counter := []; where_counter := []; join_counter := [];
     group_by_counter := []; order_by_counter := [] |}.

(** The body of the loop [for index, row in df_logs.iterrows()]. *)
Definition aggregate_row (cs : Counters) (cols : ColumnUsageRecord) : Counters :=
  {| select_counter := counter_update (select_counter cs) (select_cols cols);
     where_counter := counter_update (where_counter cs) (where_cols cols);
     join_counter := counter_update (join_counter cs) (join_cols cols);
     group_by_counter := counter_update (group_by_counter cs) (group_by_cols cols);
     order_by_counter := counter_update (order_by_counter cs) (order_by_cols cols) |}.

Definition aggregate (parsed_columns : list ColumnUsageRecord) : Counters :=
  fold_left aggregate_row parsed_columns empty_counters.

(** A row of the data frame [usage_stats] after [reset_index] and
    [rename]: the column name and its five integer counts. *)
Record UsageRow := {
  column : string;
  select : nat;
  where_ : nat;
  join : nat;
  group_by : nat;
  order_by : nat
}.

(** The index of a data frame built from a dictionary of dictionaries is
    the union of their keys, each key at its first appearance (pandas
    unions the key lists with [sort=False]). *)
Fixpoint unique_from (seen : list string) (l : list string) : list string :=
  match l with
  | [] => []
  | x :: l' =>
      if decide (x ∈ seen) then unique_from seen l'
      else x :: unique_from (x :: seen) l'
  end.

Definition union_index (keys : list (list string)) : list string :=
  unique_from [] (concat keys).

(** [.fillna(0).astype(int)]: a key missing from a counter counts 0. *)
Definition cell (c : Counter) (k : string) : nat := default 0 (counter_get c k).

(** [pd.DataFrame({...}).fillna(0).astype(int).reset_index().rename(...)]. *)
Definition usage_stats_of (cs : Counters) : list UsageRow :=
  (fun k => {| column := k;
               select := cell (select_counter cs) k;
               where_ := cell (where_counter cs) k;
               join := cell (join_counter cs) k;
               group_by := cell (group_by_counter cs) k;
               order_by := cell (order_by_counter cs) k |})
  <$> union_index [counter_keys (select_counter cs);
                   counter_keys (where_counter cs);
                   counter_keys (join_counter cs);
                   counter_keys (group_by_counter cs);
                   counter_keys (order_by_counter cs)].

(** Steps 1 to 3 on the parsed log. *)
Definition usage_stats (parsed_columns : list ColumnUsageRecord) : list UsageRow :=
  usage_stats_of (aggregate parsed_columns).

(** [usage_stats] read as a mapping from column name to its counters (the
    rows of the frame have distinct column names, see [usage_stats_NoDup]). *)
Definition usage_totals (parsed_columns : list ColumnUsageRecord) : gmap string UsageRow :=
  list_to_map ((fun r => (column r, r)) <$> usage_stats parsed_columns).

(** ** Text helpers used on the output of the query engine *)

(** The characters that [str.strip] removes, a string being read as the
    sequence of its code points, which are below 256: tab to carriage
    return, the four separators, space, next line (133) and no-break space
    (160). *)
Definition is_space (a : ascii) : bool :=
  let n := nat_of_ascii a in
  ((9 <=? n) && (n <=? 13)) || ((28 <=? n) && (n <=? 32))
  || (n =? 133) || (n =? 160).

Fixpoint lstrip (s : string) : string :=
  match s with
  | EmptyString => EmptyString
  | String a s' => if is_space a then lstrip s' else s
  end.

Definition strip (s : string) : string :=
  String.rev (lstrip (String.rev (lstrip s))).

(** [s.split(sep)] for a one-character separator: never the empty list. *)
Fixpoint split_on (sep : ascii) (s : string) : list string :=
  match s with
  | EmptyString => [EmptyString]
  | String a s' =>
      if decide (a = sep) then EmptyString :: split_on sep s'
      else match split_on sep s' with
           | [] => [String a EmptyString]
           | w :: ws => String a w :: ws
           end
  end.

Definition newline : ascii := ascii_of_nat 10.

(** [stdout.strip().split('\n')[-1]]. *)
Definition last_line (stdout : string) : string :=
  List.last (split_on newline (strip stdout)) EmptyString.

(** ** Effects: calls of the query engine and printed lines *)

(** [subprocess.CompletedProcess], the fields the script reads. *)
Record CompletedProcess := {
  returncode : Z;
  stdout : string;
  stderr : string
}.

Inductive event :=
  | Exec (argv : list string)   (* subprocess.run(argv, capture_output=True, text=True) *)
  | Print (line : string).      (* print(line) *)

(** A computation returns its value and the events it caused, oldest first. *)
Definition IO (A : Type) : Type := A * list event.

Definition io_ret {A} (a : A) : IO A := (a, []).
Definition io_bind {A B} (m : IO A) (f : A -> IO B) : IO B :=
  let (b, t) := f m.1 in (b, m.2 ++ t).
Definition print (line : string) : IO unit := (tt, [Print line]).

Notation "'do' x <- m ; k" := (io_bind m (fun x => k))
  (at level 10, x name, m at level 100, k at level 200).

(** [for x in l: s = body(s, x)] *)
Fixpoint for_each {A S} (l : list A) (body : S -> A -> IO S) (s : S) : IO S :=
  match l with
  | [] => io_ret s
  | x :: l' => do s' <- body s x; for_each l' body s'
  end.

(** ** Classification data *)

(** A row of [merged_stats]: the usage row and the cardinality cell, NaN
    ([None]) where the left merge finds no measurement. *)
Record MergedRow := {
  stats : UsageRow;
  cardinality : option Z
}.

(** An element of [partition_columns]. *)
Record PartitionColumn := {
  pc_column : string;    (* pc['column']   *)
  pc_strategy : string   (* pc['strategy'] *)
}.

Global Instance PartitionColumn_eq_dec : EqDecision PartitionColumn.
Proof. solve_decision. Defined.

(** Comparisons with a cell that may be NaN: every comparison with NaN is
    false.  (A known count is compared as an integer: the rounding of a
    count to a float is monotone and fixes both thresholds.) *)
Definition cell_gt (x : option Z) (y : Z) : bool :=
  match x with Some v => bool_decide (y < v)%Z | None => false end.
Definition cell_lt (x : option Z) (y : Z) : bool :=
  match x with Some v => bool_decide (v < y)%Z | None => false end.

(** [row['where'] + row['join'] + row['group_by'] + row['order_by']] *)
Definition usage_count (row : UsageRow) : nat :=
  where_ row + join row + group_by row + order_by row.

(** The body of the loop of Step 6. *)
Definition classify_row (partition_columns : list PartitionColumn) (row : MergedRow)
  : list PartitionColumn :=
  if decide (50 < usage_count (stats row)) then
    if cell_gt (cardinality row) HIGH_CARDINALITY_THRESHOLD then
      partition_columns ++ [ {| pc_column := column (stats row); pc_strategy := "hash" |} ]
    else if cell_lt (cardinality row) LOW_CARDINALITY_THRESHOLD then
      partition_columns ++ [ {| pc_column := column (stats row); pc_strategy := "range" |} ]
    else
      partition_columns ++ [ {| pc_column := column (stats row); pc_strategy := "range" |} ]
  else partition_columns.

Definition determine_partition_columns (merged_stats : list MergedRow)
  : list PartitionColumn :=
  fold_left classify_row merged_stats [].

(** The arm of the [if]/[elif]/[else] of [classify_row] that a cardinality
    cell selects, and the strategy that the arm appends. *)
Inductive branch := high_branch | low_branch | default_branch.

Definition cardinality_branch (c : option Z) : branch :=
  if cell_gt c HIGH_CARDINALITY_THRESHOLD then high_branch
  else if cell_lt c LOW_CARDINALITY_THRESHOLD then low_branch
  else default_branch.

Definition branch_strategy (b : branch) : string :=
  match b with
  | high_branch => "hash"
  | low_branch => "range"
  | default_branch => "range"
  end.

(** [usage_stats.merge(cardinality_df, on='column', how='left')]: the rows
    of [usage_stats] in their order, each with the measurement stored under
    its column name, if any. *)
Definition merge (usage : list UsageRow) (cardinality : gmap string Z) : list MergedRow :=
  (fun row => {| stats := row; cardinality := cardinality !! column row |}) <$> usage.

(** ** Rendering *)

(** The body of the loop of [generate_partition_spec]. *)
Definition render_step (spec : list string) (pc : PartitionColumn) : list string :=
  if decide (pc_strategy pc = "hash") then
    spec ++ ["HASH(" +:+ pc_column pc +:+ ", 16)"]
  else if decide (pc_strategy pc = "range") then
    spec ++ [pc_column pc]
  else spec.

Definition generate_partition_spec (partition_columns : list PartitionColumn) : string :=
  String.concat "," (fold_left render_step partition_columns []).

(** ** The pipeline, relative to the query engine and to [int] *)

(** What the script gets from outside: the completed process that
    [subprocess.run(argv, capture_output=True, text=True)] returns, and the
    result of Python's [int(s)] on a string, [None] when it raises
    [ValueError]. *)
Class Runtime := {
  subprocess_run : list string -> CompletedProcess;
  py_int : string -> option Z
}.

Section Pipeline.

Context {rt : Runtime}.

Definition run (argv : list string) : IO CompletedProcess :=
  (subprocess_run argv, [Exec argv]).

Definition cardinality_query (table column : string) : string :=
  "SELECT COUNT(DISTINCT " +:+ column +:+ ") FROM " +:+ table +:+ ";".

(** The answer of the engine to the count-distinct query on a column. *)
Definition answer (table column : string) : CompletedProcess :=
  subprocess_run ["trino"; "--execute"; cardinality_query table column].

(** [None] is Python's [None]; the bare [except] turns a failed
    conversion into [None]. *)
Definition get_column_cardinality (table column : string) : IO (option Z) :=
  let query := cardinality_query table column in
  do result <- run ["trino"; "--execute"; query];
  if decide (returncode result = 0%Z) then
    match py_int (last_line (stdout result)) with
    | Some count => io_ret (Some count)
    | None => io_ret None
    end
  else
    do _ <- print ("Error fetching cardinality for " +:+ column +:+ ": " +:+ stderr result);
    io_ret None.

(** The body of the loop of Step 4; [if count:] is false for [None] and
    for the integer 0. *)
Definition fetch_step (cardinality : gmap string Z) (column : string)
  : IO (gmap string Z) :=
  do count <- get_column_cardinality TABLE_NAME column;
  match count with
  | Some n => if decide (n = 0%Z) then io_ret cardinality
              else io_ret (<[column := n]> cardinality)
  | None => io_ret cardinality
  end.

Definition fetch_cardinality (columns_to_check : list string) : IO (gmap string Z) :=
  for_each columns_to_check fetch_step ∅.

Definition alter_table_partitioning (table partition_spec : string) : IO unit :=
  let query := "ALTER TABLE " +:+ table +:+ " SET PROPERTIES ('partitioning' = '"
               +:+ partition_spec +:+ "');" in
  do result <- run ["trino"; "--execute"; query];
  if decide (returncode result = 0%Z) then
    print ("Successfully altered partitioning for " +:+ table)
  else
    print ("Error altering table: " +:+ stderr result).

Definition optimize_table (table : string) : IO unit :=
  let query := "CALL system.optimize('" +:+ table +:+ "');" in
  do result <- run ["trino"; "--execute"; query];
  if decide (returncode result = 0%Z) then
    print ("Optimization initiated for " +:+ table)
  else
    print ("Error optimizing table: " +:+ stderr result).

(** The measurement that Step 4 stores for a column: the count returned
    by [get_column_cardinality] unless it is [None] or 0. *)
Definition measured (column : string) : option Z :=
  match (get_column_cardinality TABLE_NAME column).1 with
  | Some n => if decide (n = 0%Z) then None else Some n
  | None => None
  end.

(** The values of the local variables of [main] after Steps 5, 6 and 7. *)
Definition merged_stats (parsed_columns : list ColumnUsageRecord) : list MergedRow :=
  let usage := usage_stats parsed_columns in
  merge usage (fetch_cardinality (column <$> usage)).1.

Definition partition_columns (parsed_columns : list ColumnUsageRecord)
  : list PartitionColumn :=
  determine_partition_columns (merged_stats parsed_columns).

Definition partition_spec (parsed_columns : list ColumnUsageRecord) : string :=
  generate_partition_spec (partition_columns parsed_columns).

(** [main], from Step 3 on, for a log with at least one entry: on a log
    without entry the script stops at [df_logs['sql']] (Step 2) with a
    [KeyError] and Step 3 is not reached. *)
Definition main (parsed_columns : list ColumnUsageRecord) : IO unit :=
  let usage := usage_stats parsed_columns in
  let columns_to_check := column <$> usage in
  do cardinality <- fetch_cardinality columns_to_check;
  let merged := merge usage cardinality in
  let partition_columns := determine_partition_columns merged in
  let partition_spec := generate_partition_spec partition_columns in
  do _ <- print ("Recommended Partition Spec: " +:+ partition_spec);
  if decide (partition_spec <> "") then
    do _ <- alter_table_partitioning TABLE_NAME partition_spec;
    optimize_table TABLE_NAME
  else
    print "No suitable partition columns identified.".

End Pipeline.

(** ** Reading a specification back *)

(** Modelled from the spec: the reader of a rendered specification, which
    [partition.py] does not contain.  The string is cut at the commas that
    are outside parentheses, so that the function-call token
    [HASH(<column>, 16)] stays whole; a token of that shape is a hash
    decision, any other token is a range decision on the bare name; the
    empty string is the empty decision list. *)
Fixpoint split_top_level (depth : nat) (s : string) : list string :=
  match s with
  | EmptyString => [EmptyString]
  | String a s' =>
      if decide (a = "," /\ depth = 0)%char then EmptyString :: split_top_level 0 s'
      else
        let depth' := if decide (a = "(")%char then S depth
                      else if decide (a = ")")%char then pred depth
                      else depth in
        match split_top_level depth' s' with
        | [] => [String a EmptyString]
        | w :: ws => String a w :: ws
        end
  end.

(** [strip_prefix p s = Some r] when [s = p ++ r]. *)
Fixpoint strip_prefix (p s : string) : option string :=
  match p, s with
  | EmptyString, _ => Some s
  | String a p', String b s' => if decide (a = b) then strip_prefix p' s' else None
  | String _ _, EmptyString => None
  end.

Definition strip_suffix (p s : string) : option string :=
  String.rev <$> strip_prefix (String.rev p) (String.rev s).

(** Modelled from the spec: a token [HASH(<column>, 16)] is read as a hash
    decision on [<column>], any other token as a range decision on the
    token itself. *)
Definition parse_token (token : string) : PartitionColumn :=
  match strip_prefix "HASH(" token ≫= strip_suffix ", 16)" with
  | Some col => {| pc_column := col; pc_strategy := "hash" |}
  | None => {| pc_column := token; pc_strategy := "range" |}
  end.

(** Modelled from the spec: the decision list of a specification string,
    token by token; the empty string holds no token. *)
Definition parse_partition_spec (spec : string) : list PartitionColumn :=
  if decide (spec = "") then [] else parse_token <$> split_top_level 0 spec.

(** ** A concrete engine for the examples *)

(** A reader of the signed ASCII decimal literals, which [int] reads as
    written; it stands for [py_int] where a statement is evaluated on an
    example, and the examples give it nothing else but text without
    digits. *)
Definition digit_of (a : ascii) : option Z :=
  let n := nat_of_ascii a in
  if (48 <=? n) && (n <=? 57) then Some (Z.of_nat (n - 48)) else None.

Fixpoint digits_value (acc : Z) (s : string) : option Z :=
  match s with
  | EmptyString => Some acc
  | String a s' =>
      match digit_of a with
      | Some d => digits_value (10 * acc + d)%Z s'
      | None => None
      end
  end.

Definition decimal_int (s : string) : option Z :=
  match s with
  | EmptyString => None
  | String "-" (String _ _ as s') => Z.opp <$> digits_value 0 s'
  | String "+" (String _ _ as s') => digits_value 0 s'
  | _ => digits_value 0 s
  end.

(** An engine that knows the cardinality of some columns and fails on every
    other command. *)
Definition engine_of (answers : list (string * string)) (argv : list string)
  : CompletedProcess :=
  match argv with
  | [_; _; query] =>
      match list_find (fun a => cardinality_query TABLE_NAME a.1 = query) answers with
      | Some (_, a) => {| returncode := 0; stdout := a.2; stderr := "" |}
      | None => {| returncode := 1; stdout := ""; stderr := "Query failed" |}
      end
  | _ => {| returncode := 1; stdout := ""; stderr := "Query failed" |}
  end.

Definition runtime_of (answers : list (string * string)) : Runtime :=
  {| subprocess_run := engine_of answers; py_int := decimal_int |}.

(** A log of one query that references each column the given number of
    times per clause role. *)
Definition log_of (sel whe joi grp ord : list (string * nat)) : list ColumnUsageRecord :=
  let expand (l : list (string * nat)) := l ≫= (fun kn => replicate kn.2 kn.1) in
  [ {| select_cols := expand sel; where_cols := expand whe; join_cols := expand joi;
       group_by_cols := expand grp; order_by_cols := expand ord |} ].

(** ** Vocabulary of the statements *)

(** The number of times [k] occurs in a list of references. *)
Definition occurrences (k : string) (l : list string) : nat :=
  length (filter (fun x => x = k) l).

(** The references of all the records, for one clause role. *)
Definition references (role : ColumnUsageRecord -> list string)
  (parsed_columns : list ColumnUsageRecord) : list string :=
  parsed_columns ≫= role.

(** Every reference of a record, whatever its role. *)
Definition all_references (parsed_columns : list ColumnUsageRecord) : list string :=
  references select_cols parsed_columns ++ references where_cols parsed_columns ++
  references join_cols parsed_columns ++ references group_by_cols parsed_columns ++
  references order_by_cols parsed_columns.

(** The row that counts the references of column [k], role by role. *)
Definition usage_row_of (parsed_columns : list ColumnUsageRecord) (k : string) : UsageRow :=
  {| column := k;
     select := occurrences k (references select_cols parsed_columns);
     where_ := occurrences k (references where_cols parsed_columns);
     join := occurrences k (references join_cols parsed_columns);
     group_by := occurrences k (references group_by_cols parsed_columns);
     order_by := occurrences k (references order_by_cols parsed_columns) |}.

(** The decision appended for a row that clears the usage threshold. *)
Definition decision (cardinality : option Z) (row : UsageRow) : PartitionColumn :=
  {| pc_column := column row;
     pc_strategy := branch_strategy (cardinality_branch cardinality) |}.

(** The token that [generate_partition_spec] appends for a hash or a range
    decision. *)
Definition token (pc : PartitionColumn) : string :=
  if decide (pc_strategy pc = "hash") then "HASH(" +:+ pc_column pc +:+ ", 16)"
  else pc_column pc.

(** The two strategies that Step 6 produces. *)
Definition known_strategy (pc : PartitionColumn) : Prop :=
  pc_strategy pc = "hash" \/ pc_strategy pc = "range".

(** A column name without comma or parenthesis. *)
Fixpoint plain (s : string) : Prop :=
  match s with
  | EmptyString => True
  | String a s' => a <> ","%char /\ a <> "("%char /\ a <> ")"%char /\ plain s'
  end.

(** A decision that a specification can carry: a known strategy on a
    non-empty plain name. *)
Definition renderable (pc : PartitionColumn) : Prop :=
  known_strategy pc /\ pc_column pc <> "" /\ plain (pc_column pc).

(** [glue t l] puts [t] in front of the first string of [l]. *)
Definition glue (t : string) (l : list string) : list string :=
  match l with
  | [] => [t]
  | w :: ws => (t +:+ w) :: ws
  end.

(** ** The steps before the aggregation *)

Section Logs.

(** A decoded log line, and [json.loads] on a line: [None] when it raises
    [JSONDecodeError]. *)
Context {LogEntry : Type}.
Variable json_loads : string -> option LogEntry.

(** The body of the loop of [parse_logs]: a line that does not decode is
    skipped. *)
Definition parse_line (logs : list LogEntry) (line : string) : list LogEntry :=
  match json_loads line with
  | Some log_entry => logs ++ [log_entry]
  | None => logs
  end.

(** [parse_logs], up to the rows handed to [pd.DataFrame]. *)
Definition parse_logs (log_content : string) : list LogEntry :=
  fold_left parse_line (split_on newline (strip log_content)) [].

End Logs.

(** [extract_columns_metadata], from the dictionary [Parser(sql).columns_dict]
    on: [d.get(key, [])] per clause role. *)
Definition extract_columns_metadata (columns_dict : gmap string (list string))
  : ColumnUsageRecord :=
  {| select_cols := default [] (columns_dict !! "select");
     where_cols := default [] (columns_dict !! "where");
     join_cols := default [] (columns_dict !! "joins");
     group_by_cols := default [] (columns_dict !! "groupby");
     order_by_cols := default [] (columns_dict !! "orderby") |}.

(** ** Vocabulary of the further statements *)

(** The sum of two rows of the same column, counter by counter. *)
Definition add_rows (r1 r2 : UsageRow) : option UsageRow :=
  Some {| column := column r1;
          select := select r1 + select r2;
          where_ := where_ r1 + where_ r2;
          join := join r1 + join r2;
          group_by := group_by r1 + group_by r2;
          order_by := order_by r1 + order_by r2 |}.

(** The events of one pass of the loop of Step 4 on a column: the query,
    and the error line when the engine reports a failure. *)
Definition query_events `{rt : Runtime} (c : string) : list event :=
  Exec ["trino"; "--execute"; cardinality_query TABLE_NAME c] ::
  (if decide (returncode (answer TABLE_NAME c) = 0%Z) then []
   else [Print ("Error fetching cardinality for " +:+ c +:+ ": " +:+
                stderr (answer TABLE_NAME c))]).

(** The commands of Step 8. *)
Definition alter_command (partition_spec : string) : list string :=
  ["trino"; "--execute";
   "ALTER TABLE " +:+ TABLE_NAME +:+ " SET PROPERTIES ('partitioning' = '"
   +:+ partition_spec +:+ "');"].

Definition optimize_command : list string :=
  ["trino"; "--execute"; "CALL system.optimize('" +:+ TABLE_NAME +:+ "');"].

(** A string without line break, and a string made of white space only. *)
Fixpoint one_line (s : string) : Prop :=
  match s with
  | EmptyString => True
  | String a s' => a <> newline /\ one_line s'
  end.

Fixpoint blank (s : string) : Prop :=
  match s with
  | EmptyString => True
  | String a s' => is_space a = true /\ blank s'
  end.

(** * Properties *)

(** ** Evaluation on small inputs *)

Example usage_stats_ex :
  usage_stats [ {| select_cols := ["a"; "b"]; where_cols := ["c"; "c"; "a"]; join_cols := [];
                   group_by_cols := []; order_by_cols := ["d"] |};
                {| select_cols := ["b"]; where_cols := ["a"]; join_cols := ["e"];
                   group_by_cols := []; order_by_cols := [] |} ]
  = [ {| column := "a"; select := 1; where_ := 2; join := 0; group_by := 0; order_by := 0 |};
      {| column := "b"; select := 2; where_ := 0; join := 0; group_by := 0; order_by := 0 |};
      {| column := "c"; select := 0; where_ := 2; join := 0; group_by := 0; order_by := 0 |};
      {| column := "e"; select := 0; where_ := 0; join := 1; group_by := 0; order_by := 0 |};
      {| column := "d"; select := 0; where_ := 0; join := 0; group_by := 0; order_by := 1 |} ].
Proof. vm_compute. reflexivity. Qed.

Example generate_partition_spec_ex :
  generate_partition_spec
    [ {| pc_column := "colA"; pc_strategy := "hash" |};
      {| pc_column := "skipped"; pc_strategy := "list" |};
      {| pc_column := "colB"; pc_strategy := "range" |} ]
  = "HASH(colA, 16),colB".
Proof. vm_compute. reflexivity. Qed.

(** ** Counters *)

Lemma occurrences_app k l1 l2 :
  occurrences k (l1 ++ l2) = occurrences k l1 + occurrences k l2.
Proof. unfold occurrences. by rewrite filter_app, length_app. Qed.

Lemma occurrences_cons k x l :
  occurrences k (x :: l) = (if decide (x = k) then 1 else 0) + occurrences k l.
Proof.
  unfold occurrences. rewrite filter_cons. by destruct (decide (x = k)).
Qed.

Lemma occurrences_pos k l : 0 < occurrences k l <-> k ∈ l.
Proof.
  induction l as [|x l IH]; [cbn; split; [lia | by intros ?%elem_of_nil]|].
  rewrite occurrences_cons, elem_of_cons.
  destruct (decide (x = k)) as [->|Hne]; [split; [by left | lia]|].
  rewrite <- IH. split; [intros ?; right; lia | intros [->|?]; [done | lia]].
Qed.

Lemma occurrences_zero k l : occurrences k l = 0 <-> k ∉ l.
Proof. rewrite <- occurrences_pos. lia. Qed.

Lemma occurrences_Permutation k l1 l2 :
  l1 ≡ₚ l2 -> occurrences k l1 = occurrences k l2.
Proof. intros H. unfold occurrences. by rewrite H. Qed.

Lemma counter_get_incr elem c k :
  counter_get (counter_incr elem c) k =
  if decide (k = elem) then Some (S (cell c k)) else counter_get c k.
Proof.
  unfold cell. induction c as [|[k' n] c IH]; cbn.
  - repeat case_decide; congruence.
  - destruct (decide (k' = elem)) as [->|Hne]; cbn; [|rewrite IH];
      repeat case_decide; cbn; congruence.
Qed.

Lemma cell_incr elem c k :
  cell (counter_incr elem c) k = cell c k + (if decide (k = elem) then 1 else 0).
Proof.
  unfold cell at 1. rewrite counter_get_incr.
  destruct (decide (k = elem)); cbn; [lia | unfold cell; lia].
Qed.

Lemma cell_update c l k :
  cell (counter_update c l) k = cell c k + occurrences k l.
Proof.
  unfold counter_update. revert c.
  induction l as [|x l IH]; intros c; cbn [fold_left].
  { change (occurrences k []) with 0. lia. }
  rewrite IH, cell_incr, occurrences_cons.
  repeat case_decide; subst; try done; lia.
Qed.

Lemma counter_keys_get c k : k ∈ counter_keys c <-> is_Some (counter_get c k).
Proof.
  unfold counter_keys. induction c as [|[k' n] c IH]; cbn.
  - split; [by intros ?%elem_of_nil | by intros [? ?]].
  - rewrite elem_of_cons. destruct (decide (k' = k)) as [->|Hne].
    + split; [eauto | by left].
    + rewrite <- IH. split; [intros [->|?]; done | by right].
Qed.

Lemma counter_keys_incr elem c k :
  k ∈ counter_keys (counter_incr elem c) <-> k = elem \/ k ∈ counter_keys c.
Proof.
  rewrite !counter_keys_get, counter_get_incr.
  destruct (decide (k = elem)) as [->|Hne]; [split; eauto | split; [by right | by intros [?|?]]].
Qed.

Lemma counter_keys_update c l k :
  k ∈ counter_keys (counter_update c l) <-> k ∈ l \/ k ∈ counter_keys c.
Proof.
  unfold counter_update. revert c.
  induction l as [|x l IH]; intros c; cbn.
  - split; [by right | by intros [?%elem_of_nil|?]].
  - rewrite IH, counter_keys_incr, elem_of_cons. tauto.
Qed.

Lemma counter_update_app c l1 l2 :
  counter_update c (l1 ++ l2) = counter_update (counter_update c l1) l2.
Proof. unfold counter_update. by rewrite fold_left_app. Qed.

(** ** Aggregation *)

(** The five counters after the loop: each one has seen the references of
    its role, record after record. *)
Lemma aggregate_from cs parsed_columns :
  fold_left aggregate_row parsed_columns cs =
  {| select_counter := counter_update (select_counter cs) (references select_cols parsed_columns);
     where_counter := counter_update (where_counter cs) (references where_cols parsed_columns);
     join_counter := counter_update (join_counter cs) (references join_cols parsed_columns);
     group_by_counter := counter_update (group_by_counter cs) (references group_by_cols parsed_columns);
     order_by_counter := counter_update (order_by_counter cs) (references order_by_cols parsed_columns) |}.
Proof.
  revert cs. induction parsed_columns as [|r rs IH]; intros cs; [by destruct cs|].
  cbn [fold_left]. rewrite IH. unfold references.
  rewrite !bind_cons, !counter_update_app. by destruct cs.
Qed.

Lemma elem_of_unique_from seen l x :
  x ∈ unique_from seen l <-> x ∈ l /\ x ∉ seen.
Proof.
  revert seen. induction l as [|y l IH]; intros seen; cbn.
  - split; [by intros ?%elem_of_nil | by intros [?%elem_of_nil _]].
  - destruct (decide (y ∈ seen)) as [Hin|Hnin].
    + rewrite IH, elem_of_cons. split; [tauto|].
      intros [[->|?] ?]; done.
    + rewrite !elem_of_cons, IH, elem_of_cons.
      split; [intros [->|(? & ?)]; tauto|].
      intros [[->|?] ?]; [by left|].
      destruct (decide (x = y)); [by left | right; tauto].
Qed.

Lemma NoDup_unique_from seen l : NoDup (unique_from seen l).
Proof.
  revert seen. induction l as [|y l IH]; intros seen; cbn; [constructor|].
  destruct (decide (y ∈ seen)); [done|].
  constructor; [|done].
  rewrite elem_of_unique_from, elem_of_cons. tauto.
Qed.

Lemma usage_stats_columns parsed_columns :
  column <$> usage_stats parsed_columns =
  union_index [counter_keys (select_counter (aggregate parsed_columns));
               counter_keys (where_counter (aggregate parsed_columns));
               counter_keys (join_counter (aggregate parsed_columns));
               counter_keys (group_by_counter (aggregate parsed_columns));
               counter_keys (order_by_counter (aggregate parsed_columns))].
Proof.
  unfold usage_stats, usage_stats_of. rewrite <- list_fmap_compose.
  etransitivity; [|apply list_fmap_id]. by apply list_fmap_ext.
Qed.

(** One row per column of the frame. *)
Lemma usage_stats_NoDup parsed_columns :
  NoDup (column <$> usage_stats parsed_columns).
Proof. rewrite usage_stats_columns. apply NoDup_unique_from. Qed.

(** The frame has a row for exactly the columns that some record mentions. *)
Lemma elem_of_usage_stats_columns parsed_columns k :
  k ∈ column <$> usage_stats parsed_columns <-> k ∈ all_references parsed_columns.
Proof.
  rewrite usage_stats_columns. unfold union_index, aggregate, all_references.
  rewrite elem_of_unique_from, aggregate_from. cbn [concat select_counter where_counter
    join_counter group_by_counter order_by_counter empty_counters].
  rewrite app_nil_r, !elem_of_app, !counter_keys_update.
  assert (Hnil : forall x : string, x ∈ counter_keys [] <-> False)
    by (intros x; split; [by intros ?%elem_of_nil | done]).
  rewrite !Hnil. tauto.
Qed.

(** Each row holds the number of references of its column, role by role. *)
Lemma usage_stats_rows parsed_columns :
  usage_stats parsed_columns =
  usage_row_of parsed_columns <$> (column <$> usage_stats parsed_columns).
Proof.
  rewrite usage_stats_columns. unfold usage_stats, usage_stats_of.
  apply list_fmap_ext. intros _ k _. unfold usage_row_of, aggregate.
  rewrite aggregate_from. cbn [select_counter where_counter join_counter
    group_by_counter order_by_counter empty_counters].
  by rewrite !cell_update.
Qed.

Lemma list_to_map_keyed (f : string -> UsageRow) (ks : list string) (c : string) :
  (list_to_map ((fun k => (k, f k)) <$> ks) : gmap string UsageRow) !! c =
  if decide (c ∈ ks) then Some (f c) else None.
Proof.
  induction ks as [|k ks IH]; cbn.
  - rewrite lookup_empty. by rewrite decide_False by apply not_elem_of_nil.
  - destruct (decide (k = c)) as [->|Hne].
    + rewrite lookup_insert_eq. rewrite decide_True; [done | by left].
    + rewrite lookup_insert_ne, IH by done.
      destruct (decide (c ∈ ks)) as [Hin|Hnin].
      * rewrite decide_True; [done | by right].
      * rewrite decide_False; [done|]. rewrite elem_of_cons. by intros [->|?].
Qed.

(** The mapping read off the frame, column by column. *)
Lemma usage_totals_lookup parsed_columns c :
  usage_totals parsed_columns !! c =
  if decide (c ∈ all_references parsed_columns)
  then Some (usage_row_of parsed_columns c) else None.
Proof.
  unfold usage_totals. rewrite usage_stats_rows, <- list_fmap_compose.
  rewrite (list_fmap_ext _ (fun k => (k, usage_row_of parsed_columns k)))
    by done.
  rewrite list_to_map_keyed.
  destruct (decide (c ∈ all_references parsed_columns)) as [H|H];
    rewrite <- elem_of_usage_stats_columns in H;
    [by rewrite decide_True | by rewrite decide_False].
Qed.

Lemma elem_of_usage_stats parsed_columns row :
  row ∈ usage_stats parsed_columns <->
  column row ∈ all_references parsed_columns /\
  row = usage_row_of parsed_columns (column row).
Proof.
  rewrite <- elem_of_usage_stats_columns. split.
  - intros Hrow. split; [by apply list_elem_of_fmap_2|].
    rewrite usage_stats_rows in Hrow.
    apply list_elem_of_fmap in Hrow as (k & -> & _). done.
  - intros [Hin ->]. rewrite usage_stats_rows. by apply list_elem_of_fmap_2.
Qed.

(** ** Classification *)

(** [classify_row] appends, for a row above the usage threshold, the
    strategy of the arm that the cardinality cell selects. *)
Lemma classify_row_decision partition_columns row :
  classify_row partition_columns row =
  if decide (50 < usage_count (stats row))
  then partition_columns ++ [decision (cardinality row) (stats row)]
  else partition_columns.
Proof.
  unfold classify_row, decision, cardinality_branch.
  destruct (decide _); [|done].
  destruct (cell_gt _ _); [done|]. by destruct (cell_lt _ _).
Qed.

Lemma determine_partition_columns_from acc merged :
  fold_left classify_row merged acc =
  acc ++ ((fun row => decision (cardinality row) (stats row))
            <$> filter (fun row => 50 < usage_count (stats row)) merged).
Proof.
  revert acc. induction merged as [|row merged IH]; intros acc; cbn [fold_left].
  - by rewrite filter_nil, app_nil_r.
  - rewrite IH, filter_cons, classify_row_decision.
    destruct (decide (50 < usage_count (stats row))); [|done].
    by rewrite <- app_assoc.
Qed.

(** Step 6 keeps the rows above the usage threshold, in their order. *)
Lemma determine_partition_columns_filter merged :
  determine_partition_columns merged =
  (fun row => decision (cardinality row) (stats row))
    <$> filter (fun row => 50 < usage_count (stats row)) merged.
Proof. unfold determine_partition_columns. by rewrite determine_partition_columns_from. Qed.

Lemma filter_merge (f : string -> option Z) (usage : list UsageRow) :
  filter (fun row => 50 < usage_count (stats row))
    ((fun u => {| stats := u; cardinality := f (column u) |}) <$> usage) =
  (fun u => {| stats := u; cardinality := f (column u) |})
    <$> filter (fun u => 50 < usage_count u) usage.
Proof.
  induction usage as [|u usage IH]; [done|].
  rewrite fmap_cons, !filter_cons. cbn [stats].
  destruct (decide (50 < usage_count u)); by rewrite IH.
Qed.

Lemma decisions_absent (g : UsageRow -> PartitionColumn) (usage : list UsageRow) c :
  (forall u, pc_column (g u) = column u) ->
  c ∉ column <$> usage ->
  filter (fun pc => pc_column pc = c)
    (g <$> filter (fun u => 50 < usage_count u) usage) = [].
Proof.
  intros Hg. induction usage as [|u usage IH]; [done|].
  rewrite fmap_cons, not_elem_of_cons. intros [Hne Hnin].
  rewrite filter_cons. destruct (decide (50 < usage_count u)); [|by apply IH].
  rewrite fmap_cons, filter_cons_False by (rewrite Hg; congruence). by apply IH.
Qed.

(** With one row per column, the decisions about the column of a row are
    the decision for that row, if the row is selected. *)
Lemma decisions_of_row (g : UsageRow -> PartitionColumn) (usage : list UsageRow) u :
  (forall u, pc_column (g u) = column u) ->
  NoDup (column <$> usage) ->
  u ∈ usage ->
  filter (fun pc => pc_column pc = column u)
    (g <$> filter (fun u => 50 < usage_count u) usage) =
  if decide (50 < usage_count u) then [g u] else [].
Proof.
  intros Hg. induction usage as [|x usage IH]; [by intros _ ?%elem_of_nil|].
  rewrite fmap_cons, NoDup_cons, elem_of_cons. intros [Hx Hnd] [->|Hin].
  - rewrite filter_cons. destruct (decide (50 < usage_count x)).
    + rewrite fmap_cons, filter_cons_True by apply Hg.
      by rewrite decisions_absent.
    + by rewrite decisions_absent.
  - assert (column x <> column u) as Hne
      by (intros Heq; apply Hx; rewrite Heq; by apply list_elem_of_fmap_2).
    rewrite filter_cons. destruct (decide (50 < usage_count x)); [|by apply IH].
    rewrite fmap_cons, filter_cons_False by (rewrite Hg; congruence). by apply IH.
Qed.

Lemma io_bind_fst {A B} (m : IO A) (f : A -> IO B) :
  (io_bind m f).1 = (f m.1).1.
Proof. unfold io_bind. by destruct (f m.1). Qed.

Lemma io_bind_snd {A B} (m : IO A) (f : A -> IO B) :
  (io_bind m f).2 = m.2 ++ (f m.1).2.
Proof. unfold io_bind. by destruct (f m.1). Qed.

Lemma io_bind_ext {A B} (m : IO A) (f g : A -> IO B) :
  f m.1 = g m.1 -> io_bind m f = io_bind m g.
Proof. unfold io_bind. by intros ->. Qed.

Section PipelineFacts.

Context {rt : Runtime}.

Lemma get_column_cardinality_value table column :
  (get_column_cardinality table column).1 =
  if decide (returncode (answer table column) = 0%Z)
  then py_int (last_line (stdout (answer table column))) else None.
Proof.
  unfold get_column_cardinality, answer, io_bind, run.
  cbn. destruct (decide _); [|done]. by destruct (py_int _).
Qed.

(** The only command [get_column_cardinality] runs is its query. *)
Lemma get_column_cardinality_events table column argv :
  Exec argv ∈ (get_column_cardinality table column).2 ->
  argv = ["trino"; "--execute"; cardinality_query table column].
Proof.
  unfold get_column_cardinality, io_bind, run.
  cbn. destruct (decide _); [destruct (py_int _)|]; cbn;
    rewrite ?elem_of_cons; intros H; decompose [or] H; clear H;
    try congruence; by repeat match goal with H : _ ∈ [] |- _ => apply elem_of_nil in H end.
Qed.

Lemma fetch_step_value cardinality column :
  (fetch_step cardinality column).1 =
  match measured column with
  | Some n => <[column := n]> cardinality
  | None => cardinality
  end.
Proof.
  unfold fetch_step, measured, io_bind.
  destruct (get_column_cardinality TABLE_NAME column) as [[n|] t]; cbn; [|done].
  by destruct (decide (n = 0%Z)).
Qed.

Lemma fetch_step_events cardinality column :
  (fetch_step cardinality column).2 = (get_column_cardinality TABLE_NAME column).2.
Proof.
  unfold fetch_step, io_bind.
  destruct (get_column_cardinality TABLE_NAME column) as [[n|] t]; cbn;
    [destruct (decide (n = 0%Z))|]; cbn; by rewrite app_nil_r.
Qed.

Lemma for_each_cons {A S} (body : S -> A -> IO S) x l s :
  for_each (x :: l) body s =
  ((for_each l body (body s x).1).1, (body s x).2 ++ (for_each l body (body s x).1).2).
Proof. cbn. unfold io_bind. by destruct (for_each l body _). Qed.

Lemma fetch_from_lookup columns cardinality c :
  (for_each columns fetch_step cardinality).1 !! c =
  if decide (c ∈ columns)
  then match measured c with Some n => Some n | None => cardinality !! c end
  else cardinality !! c.
Proof.
  revert cardinality. induction columns as [|x columns IH]; intros cardinality.
  - cbn. rewrite decide_False; [done | apply not_elem_of_nil].
  - rewrite for_each_cons. cbn [fst]. rewrite IH, fetch_step_value.
    destruct (decide (c = x)) as [->|Hne].
    + rewrite (decide_True (P := x ∈ x :: columns)) by left.
      destruct (measured x) as [n|]; rewrite ?lookup_insert_eq; by destruct (decide _).
    + assert ((match measured x with
               | Some n => <[x:=n]> cardinality | None => cardinality end) !! c
              = cardinality !! c) as ->
        by (destruct (measured x); by rewrite ?lookup_insert_ne).
      destruct (decide (c ∈ columns)) as [Hin|Hnin].
      * rewrite decide_True; [done | by right].
      * rewrite decide_False; [done|]. rewrite elem_of_cons. by intros [?|?].
Qed.

(** The dictionary [cardinality] after Step 4. *)
Lemma fetch_cardinality_lookup columns c :
  (fetch_cardinality columns).1 !! c =
  if decide (c ∈ columns) then measured c else None.
Proof.
  unfold fetch_cardinality.
  rewrite fetch_from_lookup, lookup_empty.
  destruct (decide _); [by destruct (measured c) | done].
Qed.

Lemma fetch_from_events columns cardinality argv :
  Exec argv ∈ (for_each columns fetch_step cardinality).2 ->
  exists c, c ∈ columns /\ argv = ["trino"; "--execute"; cardinality_query TABLE_NAME c].
Proof.
  revert cardinality. induction columns as [|x columns IH]; intros cardinality.
  - by intros ?%elem_of_nil.
  - rewrite for_each_cons. cbn [snd]. rewrite elem_of_app, fetch_step_events.
    intros [H%get_column_cardinality_events|H%IH].
    + exists x. split; [by left | done].
    + destruct H as (c & ? & ?). exists c. split; [by right | done].
Qed.

(** Step 5: every usage row, with the measurement of its column. *)
Lemma merged_stats_rows parsed_columns :
  merged_stats parsed_columns =
  (fun u => {| stats := u; cardinality := measured (column u) |})
    <$> usage_stats parsed_columns.
Proof.
  unfold merged_stats, merge. apply list_fmap_ext. intros i u Hu.
  rewrite fetch_cardinality_lookup, decide_True; [done|].
  apply list_elem_of_fmap_2. by eapply list_elem_of_lookup_2.
Qed.

(** Step 6 on the frame of Step 3: the rows whose filter usage exceeds
    50, in the order of the frame, each with the strategy chosen from its
    measurement. *)
Lemma partition_columns_rows parsed_columns :
  partition_columns parsed_columns =
  (fun u => decision (measured (column u)) u)
    <$> filter (fun u => 50 < usage_count u) (usage_stats parsed_columns).
Proof.
  unfold partition_columns.
  rewrite determine_partition_columns_filter, merged_stats_rows.
  rewrite filter_merge.
  by rewrite <- list_fmap_compose.
Qed.

(** The decisions about the column of a row of the frame. *)
Lemma partition_columns_of_row parsed_columns u :
  u ∈ usage_stats parsed_columns ->
  filter (fun pc => pc_column pc = column u) (partition_columns parsed_columns) =
  if decide (50 < usage_count u) then [decision (measured (column u)) u] else [].
Proof.
  intros Hu. rewrite partition_columns_rows.
  apply (decisions_of_row (fun u => decision (measured (column u)) u));
    [done | apply usage_stats_NoDup | done].
Qed.

(** The columns of the decision list. *)
Lemma elem_of_partition_columns parsed_columns c :
  c ∈ pc_column <$> partition_columns parsed_columns <->
  exists u, u ∈ usage_stats parsed_columns /\ column u = c /\ 50 < usage_count u.
Proof.
  rewrite partition_columns_rows, <- list_fmap_compose, list_elem_of_fmap.
  split.
  - intros (u & -> & [Hu Hin]%list_elem_of_filter). by exists u.
  - intros (u & Hin & <- & Hu). exists u. split; [done|].
    by apply list_elem_of_filter.
Qed.

(** The events of [main]: the cardinality queries, the recommendation,
    then either the two administrative commands or the notice. *)
Lemma main_events parsed_columns :
  (main parsed_columns).2 =
  (fetch_cardinality (column <$> usage_stats parsed_columns)).2 ++
  Print ("Recommended Partition Spec: " +:+ partition_spec parsed_columns) ::
  (if decide (partition_spec parsed_columns <> "")
   then (alter_table_partitioning TABLE_NAME (partition_spec parsed_columns)).2 ++
        (optimize_table TABLE_NAME).2
   else [Print "No suitable partition columns identified."]).
Proof.
  unfold main, partition_spec, partition_columns, merged_stats.
  rewrite !io_bind_snd. f_equal. cbn [print snd app]. f_equal.
  destruct (decide _); [|done]. by rewrite io_bind_snd.
Qed.

End PipelineFacts.

(** ** Usage aggregation (Step 3) *)

(** The mapping depends on the references of each role only up to their
    order. *)
Lemma usage_totals_references rs rs' :
  references select_cols rs ≡ₚ references select_cols rs' ->
  references where_cols rs ≡ₚ references where_cols rs' ->
  references join_cols rs ≡ₚ references join_cols rs' ->
  references group_by_cols rs ≡ₚ references group_by_cols rs' ->
  references order_by_cols rs ≡ₚ references order_by_cols rs' ->
  usage_totals rs = usage_totals rs'.
Proof.
  intros Hs Hw Hj Hg Ho. apply map_eq. intros c.
  rewrite !usage_totals_lookup. unfold usage_row_of, all_references.
  rewrite (occurrences_Permutation c _ _ Hs), (occurrences_Permutation c _ _ Hw),
    (occurrences_Permutation c _ _ Hj), (occurrences_Permutation c _ _ Hg),
    (occurrences_Permutation c _ _ Ho).
  apply decide_ext. by rewrite Hs, Hw, Hj, Hg, Ho.
Qed.

(** C5. Usage aggregation is count-preserving.  The frame [usage_stats]
    has one row per column; read as a mapping, it sends a column that some
    record mentions to the row whose counter for each clause role is the
    number of occurrences of the column in that role over all the records,
    each occurrence counted, and it has no entry for a column that no
    record mentions. *)
Theorem usage_aggregation_count_preserving
    (parsed_columns : list ColumnUsageRecord) (c : string) :
  NoDup (column <$> usage_stats parsed_columns) /\
  (forall row, row ∈ usage_stats parsed_columns <->
               usage_totals parsed_columns !! column row = Some row) /\
  usage_totals parsed_columns !! c =
    if decide (c ∈ all_references parsed_columns)
    then Some {| column := c;
                 select := occurrences c (references select_cols parsed_columns);
                 where_ := occurrences c (references where_cols parsed_columns);
                 join := occurrences c (references join_cols parsed_columns);
                 group_by := occurrences c (references group_by_cols parsed_columns);
                 order_by := occurrences c (references order_by_cols parsed_columns) |}
    else None.
Proof.
  split; [apply usage_stats_NoDup|]. split; [|apply usage_totals_lookup].
  intros row. rewrite elem_of_usage_stats, usage_totals_lookup.
  destruct (decide (column row ∈ all_references parsed_columns)) as [Hin|Hnin].
  - split; [by intros [_ <-] | intros [= Heq]; by split].
  - split; [by intros [? _] | done].
Qed.

(** C6. Aggregation is order-independent: two logs that are permutations
    of one another give the same mapping from column to counters. *)
Theorem aggregation_order_independent (rs rs' : list ColumnUsageRecord) :
  rs ≡ₚ rs' -> usage_totals rs = usage_totals rs'.
Proof.
  intros H. apply usage_totals_references; unfold references; by rewrite H.
Qed.

Lemma aggregation_order_independent_witness :
  usage_totals (log_of [("a", 1)] [("b", 2)] [] [] [] ++ log_of [] [("a", 3)] [("b", 1)] [] []) =
  usage_totals (log_of [] [("a", 3)] [("b", 1)] [] [] ++ log_of [("a", 1)] [("b", 2)] [] [] []).
Proof.
  apply (aggregation_order_independent
           (log_of [("a", 1)] [("b", 2)] [] [] [] ++ log_of [] [("a", 3)] [("b", 1)] [] [])).
  apply Permutation_app_comm.
Defined.

(** The order of the rows of the frame, unlike the mapping, follows the
    order of the log. *)
Example usage_stats_row_order :
  column <$> usage_stats (log_of [] [("a", 1)] [] [] [] ++ log_of [] [("b", 1)] [] [] [])
    = ["a"; "b"] /\
  column <$> usage_stats (log_of [] [("b", 1)] [] [] [] ++ log_of [] [("a", 1)] [] [] [])
    = ["b"; "a"].
Proof. split; vm_compute; reflexivity. Qed.

(** ** Strategy classification (Steps 4 to 6) *)

Lemma measured_unknown `{rt : Runtime} c :
  (get_column_cardinality TABLE_NAME c).1 = None -> measured c = None.
Proof. unfold measured. by intros ->. Qed.

Lemma measured_zero `{rt : Runtime} c :
  (get_column_cardinality TABLE_NAME c).1 = Some 0%Z -> measured c = None.
Proof. unfold measured. by intros ->. Qed.

Lemma measured_known `{rt : Runtime} c k :
  (get_column_cardinality TABLE_NAME c).1 = Some k -> k <> 0%Z -> measured c = Some k.
Proof. unfold measured. intros -> Hk. by rewrite decide_False. Qed.

(** The loop of Step 4 queries every column it is given. *)
Lemma fetch_cardinality_queries `{rt : Runtime} columns c :
  c ∈ columns ->
  Exec ["trino"; "--execute"; cardinality_query TABLE_NAME c]
    ∈ (fetch_cardinality columns).2.
Proof.
  unfold fetch_cardinality. generalize (∅ : gmap string Z).
  induction columns as [|x columns IH]; intros m; [by intros ?%elem_of_nil|].
  rewrite for_each_cons, elem_of_cons. cbn [snd]. rewrite elem_of_app.
  intros [->|Hin]; [left | right; by apply IH].
  rewrite fetch_step_events. unfold get_column_cardinality.
  rewrite io_bind_snd. apply elem_of_app. left. apply list_elem_of_here.
Qed.

(** C2. The usage threshold is strict.  A column whose filter usage is
    exactly 50 gets no decision, a column whose filter usage is 51 gets
    one; in general a column of the frame is in the decision list exactly
    when its filter usage is greater than 50. *)
Theorem usage_threshold_is_strict `{rt : Runtime}
    (parsed_columns : list ColumnUsageRecord) (u : UsageRow) :
  u ∈ usage_stats parsed_columns ->
  (usage_count u = 50 -> column u ∉ pc_column <$> partition_columns parsed_columns) /\
  (usage_count u = 51 -> column u ∈ pc_column <$> partition_columns parsed_columns) /\
  (column u ∈ pc_column <$> partition_columns parsed_columns <-> 50 < usage_count u).
Proof.
  intros Hu.
  assert (column u ∈ pc_column <$> partition_columns parsed_columns
          <-> 50 < usage_count u) as Hiff.
  { rewrite elem_of_partition_columns. split; [|by exists u].
    intros (u' & Hu' & Hcol & Hcount).
    apply elem_of_usage_stats in Hu as [_ ->], Hu' as [_ Hu'].
    rewrite Hu', Hcol in Hcount. done. }
  rewrite Hiff. repeat split; lia.
Qed.

Lemma usage_threshold_is_strict_witness :
  ("edge" ∉ pc_column <$>
     partition_columns (rt := runtime_of [("edge", "500000"); ("over", "500000")])
       (log_of [] [("edge", 50); ("over", 51)] [] [] [])) /\
  ("over" ∈ pc_column <$>
     partition_columns (rt := runtime_of [("edge", "500000"); ("over", "500000")])
       (log_of [] [("edge", 50); ("over", 51)] [] [] [])).
Proof.
  split.
  - refine (proj1 (usage_threshold_is_strict
             (rt := runtime_of [("edge", "500000"); ("over", "500000")])
             (log_of [] [("edge", 50); ("over", 51)] [] [] [])
             {| column := "edge"; select := 0; where_ := 50; join := 0;
                group_by := 0; order_by := 0 |} _) _); [|reflexivity].
    vm_compute. apply list_elem_of_here.
  - refine (proj1 (proj2 (usage_threshold_is_strict
             (rt := runtime_of [("edge", "500000"); ("over", "500000")])
             (log_of [] [("edge", 50); ("over", 51)] [] [] [])
             {| column := "over"; select := 0; where_ := 51; join := 0;
                group_by := 0; order_by := 0 |} _)) _); [|reflexivity].
    vm_compute. apply list_elem_of_further, list_elem_of_here.
Defined.

(** C4. Select-only usage never promotes a column: a column that no
    record references in the where, join, group-by or order-by role has no
    decision, however often it is selected and whatever the engine answers
    about its cardinality. *)
Theorem select_only_never_promotes `{rt : Runtime}
    (parsed_columns : list ColumnUsageRecord) (c : string) :
  c ∉ references where_cols parsed_columns ->
  c ∉ references join_cols parsed_columns ->
  c ∉ references group_by_cols parsed_columns ->
  c ∉ references order_by_cols parsed_columns ->
  c ∉ pc_column <$> partition_columns parsed_columns.
Proof.
  intros Hw%occurrences_zero Hj%occurrences_zero Hg%occurrences_zero Ho%occurrences_zero.
  rewrite elem_of_partition_columns. intros (u & [_ Hu]%elem_of_usage_stats & Hc & Hcount).
  rewrite Hu, Hc in Hcount. unfold usage_count, usage_row_of in Hcount.
  cbn [where_ join group_by order_by] in Hcount. lia.
Qed.

Lemma select_only_never_promotes_witness :
  "sel" ∉ pc_column <$>
    partition_columns (rt := runtime_of [("sel", "500000")])
      (log_of [("sel", 200)] [("w", 60)] [] [] []).
Proof.
  apply (select_only_never_promotes (rt := runtime_of [("sel", "500000")])
           (log_of [("sel", 200)] [("w", 60)] [] [] []) "sel");
    apply occurrences_zero; vm_compute; reflexivity.
Defined.

(** C3. Cardinality boundaries, for a column above the usage threshold
    whose measured cardinality [k] is known.  At exactly 100,000 the
    comparison with the high threshold fails and the column is range, by the
    default arm; at exactly 1,000 the comparison with the low threshold
    fails as well and the column is range, again by the default arm; above
    100,000 the column is hash. *)
Theorem cardinality_boundaries `{rt : Runtime}
    (parsed_columns : list ColumnUsageRecord) (u : UsageRow) (k : Z) :
  u ∈ usage_stats parsed_columns ->
  50 < usage_count u ->
  (get_column_cardinality TABLE_NAME (column u)).1 = Some k ->
  k <> 0%Z ->
  let decisions :=
    filter (fun pc => pc_column pc = column u) (partition_columns parsed_columns) in
  {| stats := u; cardinality := Some k |} ∈ merged_stats parsed_columns /\
  (k = 100000%Z ->
     cell_gt (Some k) HIGH_CARDINALITY_THRESHOLD = false /\
     cardinality_branch (Some k) = default_branch /\
     decisions = [ {| pc_column := column u; pc_strategy := "range" |} ]) /\
  (k = 1000%Z ->
     cell_lt (Some k) LOW_CARDINALITY_THRESHOLD = false /\
     cardinality_branch (Some k) = default_branch /\
     decisions = [ {| pc_column := column u; pc_strategy := "range" |} ]) /\
  ((100000 < k)%Z ->
     cell_gt (Some k) HIGH_CARDINALITY_THRESHOLD = true /\
     cardinality_branch (Some k) = high_branch /\
     decisions = [ {| pc_column := column u; pc_strategy := "hash" |} ]).
Proof.
  intros Hu Hcount Hk Hk0 decisions.
  pose proof (measured_known _ _ Hk Hk0) as Hm.
  assert (decisions = [decision (Some k) u]) as ->.
  { unfold decisions. rewrite partition_columns_of_row by done.
    by rewrite decide_True, Hm by done. }
  split.
  { rewrite merged_stats_rows, <- Hm. by apply list_elem_of_fmap_2'  with u. }
  unfold decision. split; [by intros ->|]. split; [by intros ->|].
  intros Hhigh.
  assert (cell_gt (Some k) HIGH_CARDINALITY_THRESHOLD = true) as Hgt
    by (by apply bool_decide_eq_true_2).
  unfold cardinality_branch. by rewrite Hgt.
Qed.

Lemma cardinality_boundaries_witness :
  filter (fun pc => pc_column pc = "c")
    (partition_columns (rt := runtime_of [("c", "100000")])
       (log_of [] [("c", 51)] [] [] []))
  = [ {| pc_column := "c"; pc_strategy := "range" |} ].
Proof.
  refine (proj2 (proj2 (proj1 (proj2
    (cardinality_boundaries (rt := runtime_of [("c", "100000")])
       (log_of [] [("c", 51)] [] [] [])
       {| column := "c"; select := 0; where_ := 51; join := 0;
          group_by := 0; order_by := 0 |} 100000%Z _ _ _ _)) _))).
  - vm_compute. apply list_elem_of_here.
  - vm_compute. lia.
  - vm_compute. reflexivity.
  - discriminate.
  - reflexivity.
Defined.

(** C1. Unknown cardinality defaults to range.  When the count-distinct
    query on a column above the usage threshold fails, or its output is not
    a number, [get_column_cardinality] returns [None]; nothing is stored
    for the column, so its cell in the merged frame is NaN and not the
    number 0; the choice of strategy takes the default arm; the column has
    exactly one decision, and that decision is range.  The run goes on:
    every column of the frame is still queried and the recommendation is
    printed. *)
Theorem unknown_cardinality_defaults_to_range `{rt : Runtime}
    (parsed_columns : list ColumnUsageRecord) (u : UsageRow) :
  u ∈ usage_stats parsed_columns ->
  50 < usage_count u ->
  returncode (answer TABLE_NAME (column u)) <> 0%Z \/
  py_int (last_line (stdout (answer TABLE_NAME (column u)))) = None ->
  (get_column_cardinality TABLE_NAME (column u)).1 = None /\
  (fetch_cardinality (column <$> usage_stats parsed_columns)).1 !! column u = None /\
  (forall row, row ∈ merged_stats parsed_columns ->
               column (stats row) = column u -> cardinality row = None) /\
  cardinality_branch None = default_branch /\
  filter (fun pc => pc_column pc = column u) (partition_columns parsed_columns)
    = [ {| pc_column := column u; pc_strategy := "range" |} ] /\
  (forall c, c ∈ column <$> usage_stats parsed_columns ->
             Exec ["trino"; "--execute"; cardinality_query TABLE_NAME c]
               ∈ (main parsed_columns).2) /\
  Print ("Recommended Partition Spec: " +:+ partition_spec parsed_columns)
    ∈ (main parsed_columns).2.
Proof.
  intros Hu Hcount Hunknown.
  assert ((get_column_cardinality TABLE_NAME (column u)).1 = None) as Hnone.
  { rewrite get_column_cardinality_value.
    destruct (decide _) as [Hrc|Hrc]; [|done]. by destruct Hunknown. }
  pose proof (measured_unknown _ Hnone) as Hm.
  split; [done|]. split.
  { rewrite fetch_cardinality_lookup, Hm. by destruct (decide _). }
  split.
  { intros row Hrow Hcol. rewrite merged_stats_rows in Hrow.
    apply list_elem_of_fmap in Hrow as (u' & -> & _). cbn in *. by rewrite Hcol. }
  split; [done|]. split.
  { rewrite partition_columns_of_row by done. by rewrite decide_True, Hm by done. }
  rewrite main_events. split.
  - intros c Hc. apply elem_of_app. left. by apply fetch_cardinality_queries.
  - apply elem_of_app. right. apply list_elem_of_here.
Qed.

Lemma unknown_cardinality_defaults_to_range_witness :
  filter (fun pc => pc_column pc = "bad")
    (partition_columns (rt := runtime_of [("bad", "n/a")])
       (log_of [] [("bad", 51); ("gone", 60)] [] [] []))
  = [ {| pc_column := "bad"; pc_strategy := "range" |} ] /\
  filter (fun pc => pc_column pc = "gone")
    (partition_columns (rt := runtime_of [("bad", "n/a")])
       (log_of [] [("bad", 51); ("gone", 60)] [] [] []))
  = [ {| pc_column := "gone"; pc_strategy := "range" |} ].
Proof.
  split.
  - refine (proj1 (proj2 (proj2 (proj2 (proj2
      (unknown_cardinality_defaults_to_range (rt := runtime_of [("bad", "n/a")])
         (log_of [] [("bad", 51); ("gone", 60)] [] [] [])
         {| column := "bad"; select := 0; where_ := 51; join := 0;
            group_by := 0; order_by := 0 |} _ _ _)))))).
    + vm_compute. apply list_elem_of_here.
    + vm_compute. lia.
    + right. vm_compute. reflexivity.
  - refine (proj1 (proj2 (proj2 (proj2 (proj2
      (unknown_cardinality_defaults_to_range (rt := runtime_of [("bad", "n/a")])
         (log_of [] [("bad", 51); ("gone", 60)] [] [] [])
         {| column := "gone"; select := 0; where_ := 60; join := 0;
            group_by := 0; order_by := 0 |} _ _ _)))))).
    + vm_compute. apply list_elem_of_further, list_elem_of_here.
    + vm_compute. lia.
    + left. vm_compute. discriminate.
Defined.

(** C10. A measured cardinality of exactly 0 is discarded by the
    truthiness test of Step 4: nothing is stored for the column, its cell
    in the merged frame is NaN, and the strategy is chosen by the default
    arm, as for an unknown measurement, and not by the low-cardinality arm
    that a cell holding 0 would take.  Above the usage threshold the column
    has exactly one decision, and that decision is range. *)
Theorem zero_cardinality_is_discarded `{rt : Runtime}
    (parsed_columns : list ColumnUsageRecord) (u : UsageRow) :
  u ∈ usage_stats parsed_columns ->
  (get_column_cardinality TABLE_NAME (column u)).1 = Some 0%Z ->
  (fetch_cardinality (column <$> usage_stats parsed_columns)).1 !! column u = None /\
  {| stats := u; cardinality := None |} ∈ merged_stats parsed_columns /\
  (forall row, row ∈ merged_stats parsed_columns ->
               column (stats row) = column u -> cardinality row = None) /\
  cardinality_branch None = default_branch /\
  cardinality_branch (Some 0%Z) = low_branch /\
  (50 < usage_count u ->
   filter (fun pc => pc_column pc = column u) (partition_columns parsed_columns)
     = [ {| pc_column := column u; pc_strategy := "range" |} ]).
Proof.
  intros Hu Hzero. pose proof (measured_zero _ Hzero) as Hm.
  split.
  { rewrite fetch_cardinality_lookup, Hm. by destruct (decide _). }
  split.
  { rewrite merged_stats_rows, <- Hm. by apply list_elem_of_fmap_2' with u. }
  split.
  { intros row Hrow Hcol. rewrite merged_stats_rows in Hrow.
    apply list_elem_of_fmap in Hrow as (u' & -> & _). cbn in *. by rewrite Hcol. }
  split; [done|]. split; [done|].
  intros Hcount. rewrite partition_columns_of_row by done.
  by rewrite decide_True, Hm by done.
Qed.

Lemma zero_cardinality_is_discarded_witness :
  filter (fun pc => pc_column pc = "empty")
    (partition_columns (rt := runtime_of [("empty", "0")])
       (log_of [] [("empty", 30)] [("empty", 30)] [] []))
  = [ {| pc_column := "empty"; pc_strategy := "range" |} ].
Proof.
  refine (proj2 (proj2 (proj2 (proj2 (proj2
    (zero_cardinality_is_discarded (rt := runtime_of [("empty", "0")])
       (log_of [] [("empty", 30)] [("empty", 30)] [] [])
       {| column := "empty"; select := 0; where_ := 30; join := 30;
          group_by := 0; order_by := 0 |} _ _))))) _).
  - vm_compute. apply list_elem_of_here.
  - vm_compute. reflexivity.
  - vm_compute. lia.
Defined.

(** ** The empty recommendation (Steps 7 and 8) *)

(** Two engines that answer the count-distinct queries alike are not told
    apart by [get_column_cardinality]. *)
Lemma get_column_cardinality_ext (rt rt' : Runtime) c :
  (forall s, @py_int rt' s = @py_int rt s) ->
  @answer rt' TABLE_NAME c = @answer rt TABLE_NAME c ->
  @get_column_cardinality rt' TABLE_NAME c = @get_column_cardinality rt TABLE_NAME c.
Proof.
  unfold answer, get_column_cardinality, run, io_bind. cbn [fst snd].
  intros Hint ->. by rewrite Hint.
Qed.

Lemma fetch_cardinality_ext (rt rt' : Runtime) columns :
  (forall s, @py_int rt' s = @py_int rt s) ->
  (forall c, @answer rt' TABLE_NAME c = @answer rt TABLE_NAME c) ->
  @fetch_cardinality rt' columns = @fetch_cardinality rt columns.
Proof.
  intros Hint Hans. unfold fetch_cardinality. generalize (∅ : gmap string Z).
  induction columns as [|x columns IH]; intros m; [done|].
  assert (@fetch_step rt' m x = @fetch_step rt m x) as Hstep
    by (unfold fetch_step; by rewrite (get_column_cardinality_ext rt rt')).
  rewrite !for_each_cons, Hstep. by rewrite IH.
Qed.

Lemma filter_usage_none (usage : list UsageRow) :
  (forall u, u ∈ usage -> usage_count u <= 50) ->
  filter (fun u => 50 < usage_count u) usage = [].
Proof.
  induction usage as [|x usage IH]; intros Hlow; [done|].
  rewrite filter_cons_False.
  - apply IH. intros u Hu. apply Hlow. by right.
  - pose proof (Hlow x (list_elem_of_here _ _)). lia.
Qed.

(** C8. Empty candidate list.  For a log with at least one entry (with
    none, the script stops at [df_logs['sql']] before Step 3), when no
    column of the frame has a filter usage above 50, the decision list and
    the specification string are empty; after the cardinality queries the
    run prints the empty recommendation and the notice that no suitable
    partition column was identified, and executes nothing else: every
    command of the run is a count-distinct query, so the table is left as
    it was.  A run against an engine that answers those queries in the same
    way is the same run. *)
Theorem empty_candidates `{rt : Runtime} (parsed_columns : list ColumnUsageRecord) :
  parsed_columns <> [] ->
  (forall u, u ∈ usage_stats parsed_columns -> usage_count u <= 50) ->
  partition_columns parsed_columns = [] /\
  partition_spec parsed_columns = "" /\
  (main parsed_columns).2 =
    (fetch_cardinality (column <$> usage_stats parsed_columns)).2 ++
    [ Print "Recommended Partition Spec: ";
      Print "No suitable partition columns identified." ] /\
  (forall argv, Exec argv ∈ (main parsed_columns).2 ->
     exists c, c ∈ column <$> usage_stats parsed_columns /\
               argv = ["trino"; "--execute"; cardinality_query TABLE_NAME c]) /\
  (forall rt' : Runtime,
     (forall s, @py_int rt' s = @py_int rt s) ->
     (forall c, @answer rt' TABLE_NAME c = @answer rt TABLE_NAME c) ->
     @main rt' parsed_columns = @main rt parsed_columns).
Proof.
  intros _ Hlow.
  assert (partition_columns parsed_columns = []) as Hnone.
  { rewrite partition_columns_rows.
    by rewrite filter_usage_none. }
  assert (partition_spec parsed_columns = "") as Hspec
    by (unfold partition_spec; by rewrite Hnone).
  assert ((main parsed_columns).2 =
          (fetch_cardinality (column <$> usage_stats parsed_columns)).2 ++
          [ Print "Recommended Partition Spec: ";
            Print "No suitable partition columns identified." ]) as Hmain
    by (rewrite main_events, Hspec; by rewrite decide_False by (by intros ?)).
  split; [done|]. split; [done|]. split; [done|]. split.
  - intros argv. rewrite Hmain, elem_of_app. intros [H|H].
    + by apply fetch_from_events in H.
    + apply elem_of_cons in H as [?|H]; [done|].
      apply elem_of_cons in H as [?|H%elem_of_nil]; done.
  - intros rt' Hint Hans. unfold main.
    rewrite (fetch_cardinality_ext rt rt') by done.
    apply io_bind_ext.
    unfold partition_spec, partition_columns, merged_stats in Hspec.
    cbv zeta in Hspec. rewrite Hspec. done.
Qed.

Lemma empty_candidates_witness :
  partition_spec (rt := runtime_of [("a", "500000")])
    (log_of [("a", 500)] [("a", 30); ("b", 50)] [("a", 20)] [] []) = "".
Proof.
  refine (proj1 (proj2
    (empty_candidates (rt := runtime_of [("a", "500000")])
       (log_of [("a", 500)] [("a", 30); ("b", 50)] [("a", 20)] [] []) _ _))).
  { discriminate. }
  intros u Hu. vm_compute in Hu.
  apply elem_of_cons in Hu as [->|Hu]; [vm_compute; lia|].
  apply elem_of_cons in Hu as [->|Hu%elem_of_nil]; [vm_compute; lia | done].
Defined.

(** ** Rendering ([generate_partition_spec]) *)

Lemma render_step_known spec pc :
  known_strategy pc -> render_step spec pc = spec ++ [token pc].
Proof.
  unfold known_strategy, render_step, token.
  destruct pc as [c strategy]. cbn [pc_strategy pc_column].
  by intros [->| ->].
Qed.

Lemma render_tokens spec pcs :
  Forall known_strategy pcs ->
  fold_left render_step pcs spec = spec ++ (token <$> pcs).
Proof.
  intros H. revert spec. induction H as [|pc pcs Hpc _ IH]; intros spec; cbn [fold_left].
  - by rewrite app_nil_r.
  - rewrite IH, render_step_known by done. by rewrite <- app_assoc.
Qed.

Lemma generate_partition_spec_tokens pcs :
  Forall known_strategy pcs ->
  generate_partition_spec pcs = String.concat "," (token <$> pcs).
Proof. intros H. unfold generate_partition_spec. by rewrite render_tokens. Qed.

(** C7. Rendering.  The empty decision list renders as the empty string;
    a hash decision alone renders as [HASH(<column>, 16)] and a range
    decision alone as the bare column name; a list of hash and range
    decisions renders as its tokens joined by single commas, in order.  The
    list [(colA, hash); (colB, range)] renders as [HASH(colA, 16),colB],
    and cutting that string at its top-level commas gives the same list
    back. *)
Theorem spec_rendering :
  generate_partition_spec [] = "" /\
  (forall c, generate_partition_spec [ {| pc_column := c; pc_strategy := "hash" |} ]
             = "HASH(" +:+ c +:+ ", 16)") /\
  (forall c, generate_partition_spec [ {| pc_column := c; pc_strategy := "range" |} ] = c) /\
  (forall pc pcs, known_strategy pc -> Forall known_strategy pcs -> pcs <> [] ->
     generate_partition_spec (pc :: pcs)
     = generate_partition_spec [pc] +:+ "," +:+ generate_partition_spec pcs) /\
  generate_partition_spec
    [ {| pc_column := "colA"; pc_strategy := "hash" |};
      {| pc_column := "colB"; pc_strategy := "range" |} ] = "HASH(colA, 16),colB" /\
  parse_partition_spec "HASH(colA, 16),colB"
    = [ {| pc_column := "colA"; pc_strategy := "hash" |};
        {| pc_column := "colB"; pc_strategy := "range" |} ].
Proof.
  split; [done|]. split; [done|]. split; [done|]. split; [|split; by vm_compute].
  intros pc pcs Hpc Hpcs Hne.
  rewrite (generate_partition_spec_tokens (pc :: pcs)) by (by constructor).
  rewrite (generate_partition_spec_tokens [pc]) by (by apply Forall_cons).
  rewrite (generate_partition_spec_tokens pcs) by done.
  destruct pcs as [|pc' pcs]; done.
Qed.

(** ** The scenario of the two columns *)

(** C9. End-to-end scenario.  The row of [status] (where 30, join 25,
    filter usage 55) with cardinality 500,000 gives the decision
    (status, hash), rendered [HASH(status, 16)]; the row of [region] (where
    60) with cardinality 50 gives (region, range), rendered [region]; the
    two rows together give [HASH(status, 16),region].  The same
    recommendation comes out of the whole pipeline on a log with these
    usage totals and an engine that reports these cardinalities. *)
Theorem end_to_end_scenario (s1 s2 : nat) :
  let status := {| stats := {| column := "status"; select := s1; where_ := 30;
                               join := 25; group_by := 0; order_by := 0 |};
                   cardinality := Some 500000%Z |} in
  let region := {| stats := {| column := "region"; select := s2; where_ := 60;
                               join := 0; group_by := 0; order_by := 0 |};
                   cardinality := Some 50%Z |} in
  let rt := runtime_of [("status", "500000"); ("region", "50")] in
  let log := log_of [] [("status", 30); ("region", 60)] [("status", 25)] [] [] in
  usage_count (stats status) = 55 /\
  determine_partition_columns [status]
    = [ {| pc_column := "status"; pc_strategy := "hash" |} ] /\
  generate_partition_spec (determine_partition_columns [status]) = "HASH(status, 16)" /\
  determine_partition_columns [region]
    = [ {| pc_column := "region"; pc_strategy := "range" |} ] /\
  generate_partition_spec (determine_partition_columns [region]) = "region" /\
  generate_partition_spec (determine_partition_columns [status; region])
    = "HASH(status, 16),region" /\
  merged_stats log = [ {| stats := {| column := "status"; select := 0; where_ := 30;
                                       join := 25; group_by := 0; order_by := 0 |};
                           cardinality := Some 500000%Z |};
                        {| stats := {| column := "region"; select := 0; where_ := 60;
                                       join := 0; group_by := 0; order_by := 0 |};
                           cardinality := Some 50%Z |} ] /\
  partition_spec log = "HASH(status, 16),region".
Proof. cbv zeta. repeat split; vm_compute; reflexivity. Qed.

(** ** Reading a rendered specification back *)

Lemma append_cons a s t : String a s +:+ t = String a (s +:+ t).
Proof. reflexivity. Qed.

Lemma append_nil_r s : s +:+ "" = s.
Proof. induction s as [|a s IH]; [done|]. by rewrite append_cons, IH. Qed.

Lemma append_assoc s1 s2 s3 : (s1 +:+ s2) +:+ s3 = s1 +:+ (s2 +:+ s3).
Proof. induction s1 as [|a s1 IH]; [done|]. by rewrite !append_cons, IH. Qed.

Lemma rev_app_append s t : String.rev_app s t = String.rev s +:+ t.
Proof.
  unfold String.rev. revert t. induction s as [|a s IH]; intros t; [done|].
  change (String.rev_app (String a s) t) with (String.rev_app s (String a t)).
  change (String.rev_app (String a s) "") with (String.rev_app s (String a "")).
  rewrite (IH (String a t)), (IH (String a "")). by rewrite append_assoc.
Qed.

Lemma rev_cons a s : String.rev (String a s) = String.rev s +:+ String a "".
Proof. unfold String.rev at 1. apply (rev_app_append s (String a "")). Qed.

Lemma rev_append s t : String.rev (s +:+ t) = String.rev t +:+ String.rev s.
Proof.
  induction s as [|a s IH].
  - change (String.rev "") with "". by rewrite append_nil_r.
  - by rewrite append_cons, !rev_cons, IH, append_assoc.
Qed.

Lemma rev_involutive s : String.rev (String.rev s) = s.
Proof.
  induction s as [|a s IH]; [done|]. by rewrite rev_cons, rev_append, IH.
Qed.

Lemma strip_prefix_append p s : strip_prefix p (p +:+ s) = Some s.
Proof.
  induction p as [|a p IH]; [by destruct s|].
  rewrite append_cons. cbn [strip_prefix]. by rewrite decide_True.
Qed.

Lemma strip_prefix_Some p s r : strip_prefix p s = Some r -> s = p +:+ r.
Proof.
  revert s. induction p as [|a p IH]; intros s.
  - cbn [strip_prefix]. by intros [= ->].
  - destruct s as [|b s]; cbn [strip_prefix]; [done|].
    destruct (decide (a = b)) as [->|]; [|done]. intros ->%IH. by rewrite append_cons.
Qed.

Lemma strip_suffix_append p s : strip_suffix p (s +:+ p) = Some s.
Proof.
  unfold strip_suffix. rewrite rev_append, strip_prefix_append. cbn.
  by rewrite rev_involutive.
Qed.

Lemma split_top_level_nonempty d s : split_top_level d s <> [].
Proof.
  destruct s as [|a s]; [done|]. cbn.
  destruct (decide _); [done|]. by destruct (split_top_level _ s).
Qed.

Lemma glue_glue a b l : glue a (glue b l) = glue (a +:+ b) l.
Proof. destruct l; cbn; by rewrite ?append_assoc. Qed.

(** A character that does not cut is glued to what follows. *)
Lemma split_top_level_char a d s :
  ~ (a = ","%char /\ d = 0) ->
  split_top_level d (String a s) =
  glue (String a "")
    (split_top_level (if decide (a = "("%char) then S d
                      else if decide (a = ")"%char) then pred d else d) s).
Proof. intros H. cbn [split_top_level]. rewrite decide_False by done. done. Qed.

Lemma split_top_level_plain p d s :
  plain p -> split_top_level d (p +:+ s) = glue p (split_top_level d s).
Proof.
  induction p as [|a p IH]; cbn [plain].
  - intros _. change ("" +:+ s) with s.
    pose proof (split_top_level_nonempty d s). by destruct (split_top_level d s).
  - intros (Hc & Hl & Hr & Hp). rewrite append_cons.
    rewrite split_top_level_char by (by intros [? _]).
    rewrite !decide_False by done. by rewrite IH, glue_glue.
Qed.

Lemma split_top_level_hash c s :
  plain c ->
  split_top_level 0 (("HASH(" +:+ c +:+ ", 16)") +:+ s) =
  glue ("HASH(" +:+ c +:+ ", 16)") (split_top_level 0 s).
Proof.
  intros Hc. rewrite !append_assoc.
  change ("HASH(" +:+ c +:+ ", 16)" +:+ s) with ("HASH" +:+ String "(" (c +:+ ", 16)" +:+ s)).
  rewrite (split_top_level_plain "HASH") by (by cbn).
  rewrite split_top_level_char by (by intros [? _]). cbn [decide].
  rewrite (decide_True (P := "("%char = "("%char)) by done.
  rewrite split_top_level_plain by done.
  change (", 16)" +:+ s) with (String "," (" 16" +:+ String ")" s)).
  rewrite split_top_level_char by (by intros [_ ?]).
  rewrite !(decide_False (P := ","%char = _)) by done.
  rewrite (split_top_level_plain " 16") by (by cbn).
  rewrite split_top_level_char by (by intros [? _]).
  rewrite (decide_False (P := ")"%char = "("%char)), (decide_True (P := ")"%char = ")"%char))
    by done.
  cbn [pred]. rewrite !glue_glue. f_equal. by rewrite !append_assoc.
Qed.

Lemma split_top_level_token pc s :
  renderable pc ->
  split_top_level 0 (token pc +:+ s) = glue (token pc) (split_top_level 0 s).
Proof.
  intros (Hk & _ & Hp). unfold token.
  destruct (decide _); [by apply split_top_level_hash | by apply split_top_level_plain].
Qed.

Lemma token_nonempty pc : renderable pc -> token pc <> "".
Proof. intros (_ & Hne & _). unfold token. by destruct (decide _). Qed.

Lemma split_top_level_tokens pcs :
  Forall renderable pcs -> pcs <> [] ->
  split_top_level 0 (String.concat "," (token <$> pcs)) = token <$> pcs.
Proof.
  induction 1 as [|pc pcs Hpc Hpcs IH]; [done|]. intros _.
  destruct pcs as [|pc' pcs].
  - cbn. rewrite <- (append_nil_r (token pc)) at 1.
    rewrite split_top_level_token by done. cbn. by rewrite append_nil_r.
  - change (String.concat "," (token <$> pc :: pc' :: pcs))
      with (token pc +:+ String "," (String.concat "," (token <$> pc' :: pcs))).
    rewrite split_top_level_token by done. cbn [split_top_level].
    rewrite decide_True by done. rewrite IH by done. cbn. by rewrite append_nil_r.
Qed.

Lemma parse_token_token pc : renderable pc -> parse_token (token pc) = pc.
Proof.
  intros ([Hk|Hk] & Hne & Hp); destruct pc as [c strategy]; cbn in *; subst;
    unfold parse_token, token; cbn [pc_strategy pc_column].
  - rewrite decide_True by done. rewrite strip_prefix_append. cbn [mbind option_bind].
    by rewrite strip_suffix_append.
  - rewrite decide_False by done.
    destruct (strip_prefix "HASH(" c) as [r|] eqn:Hr; [|done].
    apply strip_prefix_Some in Hr as ->.
    repeat (rewrite append_cons in Hp; cbn [plain] in Hp). intuition congruence.
Qed.

(** The reader inverts the rendering on the decisions that a
    specification can carry. *)
Lemma spec_round_trip pcs :
  Forall renderable pcs ->
  parse_partition_spec (generate_partition_spec pcs) = pcs.
Proof.
  intros Hpcs. rewrite generate_partition_spec_tokens
    by (eapply Forall_impl; [done | by intros ? [? _]]).
  unfold parse_partition_spec. destruct pcs as [|pc pcs]; [done|].
  rewrite decide_False.
  - rewrite split_top_level_tokens by done. rewrite <- list_fmap_compose.
    etransitivity; [|apply list_fmap_id]. apply list_fmap_ext.
    intros i x Hx. apply parse_token_token.
    eapply Forall_forall; [done|]. by eapply list_elem_of_lookup_2.
  - apply Forall_cons in Hpcs as [Hpc%token_nonempty _].
    cbn. destruct (token pc); [done|]. by destruct (token <$> pcs).
Qed.

(** * Further properties of the code *)

(** ** Rendering *)

Lemma render_step_unknown spec pc :
  ~ known_strategy pc -> render_step spec pc = spec.
Proof.
  unfold known_strategy, render_step. intros H.
  destruct (decide (pc_strategy pc = "hash")); [tauto|].
  destruct (decide (pc_strategy pc = "range")); [tauto | done].
Qed.

Lemma render_filter spec pcs :
  fold_left render_step pcs spec =
  fold_left render_step
    (filter (fun pc => pc_strategy pc = "hash" \/ pc_strategy pc = "range") pcs) spec.
Proof.
  revert spec. induction pcs as [|pc pcs IH]; intros spec; [done|].
  rewrite filter_cons. destruct (decide _) as [Hk|Hk]; cbn [fold_left].
  - apply IH.
  - rewrite render_step_unknown by done. apply IH.
Qed.

(** [generate_partition_spec] drops, without a trace, every element whose
    strategy is neither [hash] nor [range]: the specification is that of
    the hash and range elements alone. *)
Theorem generate_partition_spec_ignores_other_strategies
    (partition_columns : list PartitionColumn) :
  generate_partition_spec partition_columns =
  generate_partition_spec
    (filter (fun pc => pc_strategy pc = "hash" \/ pc_strategy pc = "range")
       partition_columns).
Proof. unfold generate_partition_spec. by rewrite render_filter. Qed.

(** Two lists of hash and range decisions on non-empty names without
    comma or parenthesis that render to the same specification are the same
    list. *)
Theorem generate_partition_spec_injective (pcs pcs' : list PartitionColumn) :
  Forall renderable pcs -> Forall renderable pcs' ->
  generate_partition_spec pcs = generate_partition_spec pcs' ->
  pcs = pcs'.
Proof.
  intros H H' Heq. rewrite <- (spec_round_trip pcs), <- (spec_round_trip pcs') by done.
  by rewrite Heq.
Qed.

Lemma renderable_example c strategy :
  strategy = "hash" \/ strategy = "range" -> c <> "" -> plain c ->
  renderable {| pc_column := c; pc_strategy := strategy |}.
Proof. by split. Qed.

Lemma generate_partition_spec_injective_witness :
  [ {| pc_column := "a"; pc_strategy := "hash" |};
    {| pc_column := "b"; pc_strategy := "range" |} ]
  = [ {| pc_column := "a"; pc_strategy := "hash" |};
      {| pc_column := "b"; pc_strategy := "range" |} ].
Proof.
  apply (generate_partition_spec_injective
           [ {| pc_column := "a"; pc_strategy := "hash" |};
             {| pc_column := "b"; pc_strategy := "range" |} ]
           [ {| pc_column := "a"; pc_strategy := "hash" |};
             {| pc_column := "b"; pc_strategy := "range" |} ]).
  - repeat constructor; cbn; try discriminate; tauto.
  - repeat constructor; cbn; try discriminate; tauto.
  - reflexivity.
Defined.

(** Names with a comma are not told apart: the rendering of one range
    decision on [a,b] is that of two range decisions on [a] and [b]. *)
Example generate_partition_spec_comma :
  generate_partition_spec [ {| pc_column := "a,b"; pc_strategy := "range" |} ] =
  generate_partition_spec [ {| pc_column := "a"; pc_strategy := "range" |};
                            {| pc_column := "b"; pc_strategy := "range" |} ].
Proof. reflexivity. Qed.

Lemma concat_nonempty (t : string) (ts : list string) :
  t ∈ ts -> t <> "" -> String.concat "," ts <> "".
Proof.
  induction ts as [|x ts IH]; [by intros ?%elem_of_nil|].
  intros Hin Ht. destruct ts as [|y ts].
  - apply elem_of_cons in Hin as [->|?%elem_of_nil]; done.
  - change (String.concat "," (x :: y :: ts))
      with (x +:+ String "," (String.concat "," (y :: ts))).
    by destruct x.
Qed.

(** A hash element, or a range element with a non-empty name, makes the
    specification non-empty. *)
Theorem generate_partition_spec_nonempty
    (partition_columns : list PartitionColumn) (pc : PartitionColumn) :
  pc ∈ partition_columns ->
  pc_strategy pc = "hash" \/ (pc_strategy pc = "range" /\ pc_column pc <> "") ->
  generate_partition_spec partition_columns <> "".
Proof.
  intros Hin Hpc. unfold generate_partition_spec. rewrite render_filter.
  fold (generate_partition_spec
          (filter (fun pc => pc_strategy pc = "hash" \/ pc_strategy pc = "range")
             partition_columns)).
  rewrite generate_partition_spec_tokens
    by (apply Forall_forall; by intros ? [? _]%list_elem_of_filter).
  apply (concat_nonempty (token pc)).
  - apply list_elem_of_fmap_2, list_elem_of_filter. split; [tauto | done].
  - unfold token. destruct Hpc as [->|[-> Hne]]; [done|].
    by rewrite decide_False.
Qed.

Lemma generate_partition_spec_nonempty_witness :
  generate_partition_spec
    [ {| pc_column := ""; pc_strategy := "range" |};
      {| pc_column := "b"; pc_strategy := "range" |} ] <> "".
Proof.
  apply (generate_partition_spec_nonempty _ {| pc_column := "b"; pc_strategy := "range" |}).
  - apply list_elem_of_further, list_elem_of_here.
  - right. split; [reflexivity | discriminate].
Defined.

(** ** The decision list *)

Lemma partition_columns_names `{rt : Runtime} parsed_columns :
  pc_column <$> partition_columns parsed_columns =
  column <$> filter (fun u => 50 < usage_count u) (usage_stats parsed_columns).
Proof.
  rewrite partition_columns_rows, <- list_fmap_compose. by apply list_fmap_ext.
Qed.

(** The decision list names each column at most once, and names the
    columns in the order of the rows of [usage_stats]. *)
Theorem partition_columns_distinct_in_order `{rt : Runtime}
    (parsed_columns : list ColumnUsageRecord) :
  NoDup (pc_column <$> partition_columns parsed_columns) /\
  pc_column <$> partition_columns parsed_columns
    `sublist_of` column <$> usage_stats parsed_columns.
Proof.
  assert (pc_column <$> partition_columns parsed_columns
            `sublist_of` column <$> usage_stats parsed_columns) as Hsub.
  { rewrite partition_columns_names. apply fmap_sublist, sublist_filter. }
  split; [|done]. eapply sublist_NoDup; [apply usage_stats_NoDup | done].
Qed.

(** Every decision is hash or range; it is hash exactly when the count
    returned for its column is greater than 100,000, and range in every
    other case: no count, a count of 0, a negative count, or a count up to
    100,000. *)
Theorem partition_columns_strategy `{rt : Runtime}
    (parsed_columns : list ColumnUsageRecord) (pc : PartitionColumn) :
  pc ∈ partition_columns parsed_columns ->
  (pc_strategy pc = "hash" \/ pc_strategy pc = "range") /\
  (pc_strategy pc = "hash" <->
   exists k, (get_column_cardinality TABLE_NAME (pc_column pc)).1 = Some k /\
             (100000 < k)%Z).
Proof.
  rewrite partition_columns_rows. intros (u & -> & _)%list_elem_of_fmap.
  unfold decision, cardinality_branch, measured, cell_gt, cell_lt,
    HIGH_CARDINALITY_THRESHOLD.
  cbn [pc_column pc_strategy].
  destruct (get_column_cardinality TABLE_NAME (column u)).1 as [n|] eqn:Hn.
  - destruct (decide (n = 0%Z)) as [->|Hn0].
    + cbn [branch_strategy]. split; [by right|]. split; [intros [=]|].
      intros (k & [= <-] & Hk). lia.
    + destruct (bool_decide (100000 < n)%Z) eqn:Hgt.
      * apply bool_decide_eq_true in Hgt. cbn [branch_strategy]. split; [by left|].
        split; [by exists n | done].
      * apply bool_decide_eq_false in Hgt.
        assert (forall b : branch, b <> high_branch -> branch_strategy b = "range") as Hb
          by (by intros []).
        rewrite Hb by (by destruct (bool_decide _)).
        split; [by right|]. split; [intros [=]|]. intros (k & [= <-] & Hk).
        lia.
  - cbn [branch_strategy]. split; [by right|]. split; [intros [=]|]. by intros (k & ? & _).
Qed.

Lemma partition_columns_strategy_witness :
  "hash" = "hash" <->
  exists k, (get_column_cardinality (rt := runtime_of [("c", "100001")])
               TABLE_NAME "c").1 = Some k /\ (100000 < k)%Z.
Proof.
  refine (proj2 (partition_columns_strategy (rt := runtime_of [("c", "100001")])
            (log_of [] [("c", 51)] [] [] [])
            {| pc_column := "c"; pc_strategy := "hash" |} _)).
  vm_compute. apply list_elem_of_here.
Defined.

(** ** The cardinality queries (Step 4) *)

Lemma get_column_cardinality_trace `{rt : Runtime} c :
  (get_column_cardinality TABLE_NAME c).2 = query_events c.
Proof.
  unfold get_column_cardinality, query_events, answer. rewrite io_bind_snd.
  cbn [run fst snd app]. f_equal.
  destruct (decide _); [by destruct (py_int _)|]. rewrite io_bind_snd. done.
Qed.

(** Step 4 sends one count-distinct query per column it is given, in the
    order given, whatever the answers are, and prints an error line right
    after the query of each column for which the engine reports a failure,
    and nothing else. *)
Theorem fetch_cardinality_trace `{rt : Runtime} (columns_to_check : list string) :
  (fetch_cardinality columns_to_check).2 = columns_to_check ≫= query_events.
Proof.
  unfold fetch_cardinality. generalize (∅ : gmap string Z).
  induction columns_to_check as [|c columns IH]; intros m; [done|].
  rewrite for_each_cons, bind_cons. cbn [snd].
  by rewrite IH, fetch_step_events, get_column_cardinality_trace.
Qed.

(** The dictionary [cardinality] holds a count for a column exactly when
    the column was queried and [get_column_cardinality] returned that
    count and the count is not 0; it never holds 0 and never holds a
    column that was not queried. *)
Theorem fetch_cardinality_contents `{rt : Runtime}
    (columns_to_check : list string) (c : string) (n : Z) :
  (fetch_cardinality columns_to_check).1 !! c = Some n <->
  c ∈ columns_to_check /\
  (get_column_cardinality TABLE_NAME c).1 = Some n /\ n <> 0%Z.
Proof.
  rewrite fetch_cardinality_lookup. unfold measured.
  destruct (decide (c ∈ columns_to_check)) as [Hin|Hnin]; [|by split; [|intros [? _]]].
  destruct (get_column_cardinality TABLE_NAME c).1 as [k|]; [|by split; [|intros (_ & ? & _)]].
  destruct (decide (k = 0%Z)) as [->|Hk].
  - split; [done|]. by intros (_ & [= <-] & ?).
  - split; [by intros [= <-] | by intros (_ & [= <-] & _)].
Qed.

(** ** The final report (Step 8) *)

Lemma alter_table_partitioning_trace `{rt : Runtime} spec :
  (alter_table_partitioning TABLE_NAME spec).2 =
  [ Exec (alter_command spec);
    Print (if decide (returncode (subprocess_run (alter_command spec)) = 0%Z)
           then "Successfully altered partitioning for " +:+ TABLE_NAME
           else "Error altering table: " +:+ stderr (subprocess_run (alter_command spec))) ].
Proof.
  unfold alter_table_partitioning, alter_command. rewrite io_bind_snd.
  cbn [run fst snd app]. f_equal. by destruct (decide _).
Qed.

Lemma optimize_table_trace `{rt : Runtime} :
  (optimize_table TABLE_NAME).2 =
  [ Exec optimize_command;
    Print (if decide (returncode (subprocess_run optimize_command) = 0%Z)
           then "Optimization initiated for " +:+ TABLE_NAME
           else "Error optimizing table: " +:+ stderr (subprocess_run optimize_command)) ].
Proof.
  unfold optimize_table, optimize_command. rewrite io_bind_snd.
  cbn [run fst snd app]. f_equal. by destruct (decide _).
Qed.

(** With a non-empty specification, [main] prints the recommendation, runs
    the ALTER TABLE command that carries it and then the optimize command,
    each followed by a line that reports its outcome.  The optimize command
    is run whether or not the ALTER TABLE command succeeded. *)
Theorem main_applies_recommendation `{rt : Runtime}
    (parsed_columns : list ColumnUsageRecord) :
  partition_spec parsed_columns <> "" ->
  (main parsed_columns).2 =
  ((column <$> usage_stats parsed_columns) ≫= query_events) ++
  [ Print ("Recommended Partition Spec: " +:+ partition_spec parsed_columns);
    Exec (alter_command (partition_spec parsed_columns));
    Print (if decide (returncode (subprocess_run
                        (alter_command (partition_spec parsed_columns))) = 0%Z)
           then "Successfully altered partitioning for " +:+ TABLE_NAME
           else "Error altering table: " +:+
                stderr (subprocess_run (alter_command (partition_spec parsed_columns))));
    Exec optimize_command;
    Print (if decide (returncode (subprocess_run optimize_command) = 0%Z)
           then "Optimization initiated for " +:+ TABLE_NAME
           else "Error optimizing table: " +:+ stderr (subprocess_run optimize_command)) ].
Proof.
  intros Hspec. rewrite main_events, decide_True by done.
  rewrite alter_table_partitioning_trace, optimize_table_trace.
  unfold fetch_cardinality. generalize (∅ : gmap string Z) at 1.
  induction (column <$> usage_stats parsed_columns) as [|c columns IH]; intros m; [done|].
  rewrite for_each_cons, bind_cons. cbn [snd].
  rewrite fetch_step_events, get_column_cardinality_trace, <- !app_assoc.
  f_equal. apply IH.
Qed.

Lemma main_applies_recommendation_witness :
  (main (rt := runtime_of [("c", "7")]) (log_of [] [("c", 51)] [] [] [])).2 =
  [ Exec ["trino"; "--execute";
          "SELECT COUNT(DISTINCT c) FROM my_catalog.my_schema.my_table;"];
    Print "Recommended Partition Spec: c";
    Exec ["trino"; "--execute";
          "ALTER TABLE my_catalog.my_schema.my_table SET PROPERTIES ('partitioning' = 'c');"];
    Print "Error altering table: Query failed";
    Exec ["trino"; "--execute"; "CALL system.optimize('my_catalog.my_schema.my_table');"];
    Print "Error optimizing table: Query failed" ].
Proof.
  refine (main_applies_recommendation (rt := runtime_of [("c", "7")])
            (log_of [] [("c", 51)] [] [] []) _).
  vm_compute. discriminate.
Defined.

(** ** Aggregation of several logs *)

Lemma references_app role rs rs' :
  references role (rs ++ rs') = references role rs ++ references role rs'.
Proof. unfold references. apply bind_app. Qed.

Lemma all_references_app rs rs' c :
  c ∈ all_references (rs ++ rs') <-> c ∈ all_references rs \/ c ∈ all_references rs'.
Proof.
  unfold all_references. rewrite !references_app, !elem_of_app. tauto.
Qed.

Lemma usage_row_of_unmentioned rs c :
  c ∉ all_references rs ->
  usage_row_of rs c = {| column := c; select := 0; where_ := 0; join := 0;
                         group_by := 0; order_by := 0 |}.
Proof.
  unfold all_references, usage_row_of. rewrite !elem_of_app. intros H.
  f_equal; apply occurrences_zero; tauto.
Qed.

(** Aggregating the concatenation of two logs gives the aggregate of each,
    merged by adding the counters of the columns that both mention. *)
Theorem usage_totals_app (rs rs' : list ColumnUsageRecord) :
  usage_totals (rs ++ rs') = union_with add_rows (usage_totals rs) (usage_totals rs').
Proof.
  apply map_eq. intros c. rewrite lookup_union_with, !usage_totals_lookup.
  assert (usage_row_of (rs ++ rs') c =
          {| column := c;
             select := select (usage_row_of rs c) + select (usage_row_of rs' c);
             where_ := where_ (usage_row_of rs c) + where_ (usage_row_of rs' c);
             join := join (usage_row_of rs c) + join (usage_row_of rs' c);
             group_by := group_by (usage_row_of rs c) + group_by (usage_row_of rs' c);
             order_by := order_by (usage_row_of rs c) + order_by (usage_row_of rs' c) |})
    as Hsum.
  { unfold usage_row_of. cbn. by rewrite !references_app, !occurrences_app. }
  destruct (decide (c ∈ all_references rs)) as [H|H],
           (decide (c ∈ all_references rs')) as [H'|H'].
  - rewrite decide_True by (apply all_references_app; tauto). cbn. by rewrite Hsum.
  - rewrite decide_True by (apply all_references_app; tauto). cbn.
    rewrite Hsum, (usage_row_of_unmentioned rs' c H'). cbn.
    unfold usage_row_of. f_equal. f_equal; lia.
  - rewrite decide_True by (apply all_references_app; tauto). cbn.
    rewrite Hsum, (usage_row_of_unmentioned rs c H). cbn.
    unfold usage_row_of. done.
  - rewrite decide_False by (rewrite all_references_app; tauto). done.
Qed.

(** More log never withdraws a recommendation: a decision made on a log is
    made, with the same strategy, on the log followed by further
    records. *)
Theorem partition_columns_monotone `{rt : Runtime}
    (rs rs' : list ColumnUsageRecord) (pc : PartitionColumn) :
  pc ∈ partition_columns rs -> pc ∈ partition_columns (rs ++ rs').
Proof.
  rewrite !partition_columns_rows.
  intros (u & -> & [Hcount [Hin Hu]%elem_of_usage_stats]%list_elem_of_filter)%list_elem_of_fmap.
  apply list_elem_of_fmap. exists (usage_row_of (rs ++ rs') (column u)).
  split; [done|]. apply list_elem_of_filter. split.
  - rewrite Hu in Hcount. unfold usage_count, usage_row_of in *. cbn in *.
    rewrite !references_app, !occurrences_app. lia.
  - apply elem_of_usage_stats. split; [|done]. cbn. apply all_references_app. by left.
Qed.

Lemma partition_columns_monotone_witness :
  {| pc_column := "c"; pc_strategy := "hash" |}
    ∈ partition_columns (rt := runtime_of [("c", "200000")])
        (log_of [] [("c", 51)] [] [] [] ++ log_of [("c", 3)] [("d", 80)] [] [] []).
Proof.
  apply (partition_columns_monotone (rt := runtime_of [("c", "200000")])
           (log_of [] [("c", 51)] [] [] [])).
  vm_compute. apply list_elem_of_here.
Defined.

(** ** Order of the rows of [usage_stats] *)

Lemma unique_from_ext seen seen' l :
  (forall x, x ∈ seen <-> x ∈ seen') -> unique_from seen l = unique_from seen' l.
Proof.
  revert seen seen'. induction l as [|y l IH]; intros seen seen' H; [done|].
  cbn [unique_from].
  destruct (decide (y ∈ seen)) as [Hin|Hnin].
  - rewrite decide_True by (by apply H). by apply IH.
  - rewrite decide_False by (by rewrite <- H). f_equal. apply IH.
    intros x. rewrite !elem_of_cons, H. done.
Qed.

Lemma unique_from_app seen l m :
  unique_from seen (l ++ m) = unique_from seen l ++ unique_from (l ++ seen) m.
Proof.
  revert seen. induction l as [|y l IH]; intros seen; [done|].
  cbn [app unique_from]. destruct (decide (y ∈ seen)) as [Hin|Hnin].
  - rewrite IH. f_equal. apply unique_from_ext. intros x.
    rewrite elem_of_cons, !elem_of_app. split; [tauto|].
    intros [Hx|[?|?]]; [subst; tauto | tauto | tauto].
  - rewrite IH. cbn [app]. f_equal. f_equal. apply unique_from_ext. intros x.
    rewrite elem_of_cons, !elem_of_app, elem_of_cons. tauto.
Qed.

Lemma unique_from_seen seen l :
  (forall x, x ∈ l -> x ∈ seen) -> unique_from seen l = [].
Proof.
  induction l as [|y l IH]; intros H; [done|]. cbn [unique_from].
  rewrite decide_True by (apply H; by left). apply IH. intros x Hx. apply H. by right.
Qed.

(** The keys of a counter after an update: the old keys, then the new
    elements at their first occurrence. *)
Lemma counter_keys_incr_order elem c :
  counter_keys (counter_incr elem c) =
  counter_keys c ++ unique_from (counter_keys c) [elem].
Proof.
  unfold counter_keys. induction c as [|[k n] c IH]; [done|].
  cbn [counter_incr]. destruct (decide (k = elem)) as [->|Hne].
  - cbn. rewrite decide_True by left. by rewrite app_nil_r.
  - rewrite fmap_cons, IH. cbn. destruct (decide (elem ∈ c.*1)) as [Hin|Hnin].
    + rewrite decide_True by (by right). done.
    + rewrite decide_False; [done|]. rewrite elem_of_cons. by intros [->|?].
Qed.

Lemma counter_keys_update_order c l :
  counter_keys (counter_update c l) =
  counter_keys c ++ unique_from (counter_keys c) l.
Proof.
  unfold counter_update. revert c. induction l as [|x l IH]; intros c.
  - cbn. by rewrite app_nil_r.
  - cbn [fold_left]. rewrite IH, counter_keys_incr_order.
    change (x :: l) with ([x] ++ l). rewrite unique_from_app, <- app_assoc.
    f_equal. f_equal. apply unique_from_ext. intros y.
    rewrite !elem_of_app, elem_of_unique_from, list_elem_of_singleton.
    destruct (decide (y ∈ counter_keys c)); tauto.
Qed.

Lemma unique_from_twice seen seen' l :
  (forall x, x ∈ seen' -> x ∈ seen) ->
  unique_from seen (unique_from seen' l) = unique_from seen l.
Proof.
  revert seen seen'. induction l as [|y l IH]; intros seen seen' Hsub; [done|].
  cbn [unique_from]. destruct (decide (y ∈ seen')) as [Hin'|Hnin'].
  - rewrite (decide_True (P := y ∈ seen)) by (by apply Hsub). by apply IH.
  - cbn [unique_from]. destruct (decide (y ∈ seen)) as [Hin|Hnin].
    + apply IH. intros x [->|?]%elem_of_cons; [done | by apply Hsub].
    + f_equal. apply IH. intros x. rewrite !elem_of_cons. intros [?|?%Hsub]; tauto.
Qed.

Lemma unique_from_unique seen seen' l m :
  (forall x, x ∈ seen' -> x ∈ seen) ->
  unique_from seen (unique_from seen' l ++ m) = unique_from seen (l ++ m).
Proof.
  intros Hsub. rewrite !unique_from_app, (unique_from_twice seen seen') by done.
  f_equal. apply unique_from_ext. intros x.
  rewrite !elem_of_app, elem_of_unique_from.
  destruct (decide (x ∈ seen')) as [?%Hsub|]; tauto.
Qed.

Lemma unique_from_concat seen (ls : list (list string)) :
  unique_from seen (concat (unique_from [] <$> ls)) = unique_from seen (concat ls).
Proof.
  revert seen. induction ls as [|l ls IH]; intros seen; [done|].
  cbn [fmap list_fmap concat].
  rewrite (unique_from_unique seen []) by (by intros x ?%elem_of_nil).
  by rewrite !unique_from_app, IH.
Qed.

(** The rows of [usage_stats] come in the order in which the columns first
    appear when the select references of the whole log are read first, then
    its where references, then its join, group-by and order-by
    references. *)
Theorem usage_stats_order (parsed_columns : list ColumnUsageRecord) :
  column <$> usage_stats parsed_columns =
  unique_from []
    (references select_cols parsed_columns ++ references where_cols parsed_columns ++
     references join_cols parsed_columns ++ references group_by_cols parsed_columns ++
     references order_by_cols parsed_columns).
Proof.
  rewrite usage_stats_columns. unfold union_index, aggregate.
  rewrite aggregate_from. cbn [select_counter where_counter join_counter
    group_by_counter order_by_counter empty_counters].
  rewrite !counter_keys_update_order. cbn [counter_keys fmap list_fmap app].
  transitivity (unique_from [] (concat (unique_from [] <$>
    [references select_cols parsed_columns; references where_cols parsed_columns;
     references join_cols parsed_columns; references group_by_cols parsed_columns;
     references order_by_cols parsed_columns]))); [done|].
  rewrite unique_from_concat. cbn [concat]. by rewrite app_nil_r.
Qed.

(** ** From the parser's dictionaries to the frame (Step 2) *)

Lemma elem_of_all_references rs c :
  c ∈ all_references rs <->
  exists r, r ∈ rs /\
    (c ∈ select_cols r \/ c ∈ where_cols r \/ c ∈ join_cols r \/
     c ∈ group_by_cols r \/ c ∈ order_by_cols r).
Proof.
  unfold all_references, references. rewrite !elem_of_app, !list_elem_of_bind.
  split.
  - intros [(r&?&?)|[(r&?&?)|[(r&?&?)|[(r&?&?)|(r&?&?)]]]]; exists r; tauto.
  - intros (r & Hr & [?|[?|[?|[?|?]]]]); [left|right;left|right;right;left|
      right;right;right;left|right;right;right;right]; by exists r.
Qed.

Lemma elem_of_get_default (d : gmap string (list string)) key c :
  c ∈ default [] (d !! key) -> exists l, d !! key = Some l /\ c ∈ l.
Proof. destruct (d !! key) as [l|]; [by exists l | by intros ?%elem_of_nil]. Qed.

(** Only the keys [select], [where], [joins], [groupby] and [orderby] of
    the parser's dictionaries are read: a column that the dictionaries list
    under other keys only (or not at all) has no row in [usage_stats], so
    it is neither queried nor recommended. *)
Theorem unread_keys_never_count
    (columns_dicts : list (gmap string (list string))) (c : string) :
  (forall d key l, d ∈ columns_dicts ->
     key ∈ ["select"; "where"; "joins"; "groupby"; "orderby"] ->
     d !! key = Some l -> c ∉ l) ->
  c ∉ column <$> usage_stats (extract_columns_metadata <$> columns_dicts).
Proof.
  intros H. rewrite elem_of_usage_stats_columns, elem_of_all_references.
  intros (r & (d & -> & Hd)%list_elem_of_fmap & Hc).
  unfold extract_columns_metadata in Hc. cbn in Hc.
  destruct Hc as [Hc|[Hc|[Hc|[Hc|Hc]]]];
    apply elem_of_get_default in Hc as (l & Hl & Hc);
    (eapply H; [exact Hd | | exact Hl | exact Hc]);
    repeat (first [apply list_elem_of_here | apply list_elem_of_further]).
Qed.

Lemma unread_keys_never_count_witness :
  "h" ∉ column <$> usage_stats
    (extract_columns_metadata <$>
       [ {[ "having" := ["h"; "h"]; "where" := ["w"] ]} : gmap string (list string) ]).
Proof.
  apply (unread_keys_never_count
           [ {[ "having" := ["h"; "h"]; "where" := ["w"] ]} : gmap string (list string) ] "h").
  intros d key l ->%list_elem_of_singleton Hkey Hl.
  repeat (apply elem_of_cons in Hkey as [->|Hkey]);
    try (by apply elem_of_nil in Hkey); vm_compute in Hl; try discriminate.
  injection Hl as <-. by intros [?|?%elem_of_nil]%elem_of_cons.
Defined.

(** A non-empty log whose queries have none of the five keys gives an
    empty frame: [main] sends no command to the engine and only prints the
    empty recommendation and the notice. *)
Theorem main_without_references `{rt : Runtime}
    (columns_dicts : list (gmap string (list string))) :
  columns_dicts <> [] ->
  (forall d key, d ∈ columns_dicts ->
     key ∈ ["select"; "where"; "joins"; "groupby"; "orderby"] -> d !! key = None) ->
  usage_stats (extract_columns_metadata <$> columns_dicts) = [] /\
  (main (extract_columns_metadata <$> columns_dicts)).2 =
    [ Print "Recommended Partition Spec: ";
      Print "No suitable partition columns identified." ].
Proof.
  intros _ H.
  assert (usage_stats (extract_columns_metadata <$> columns_dicts) = []) as Hstats.
  { apply (fmap_nil_inv column), elem_of_nil_inv. intros c.
    rewrite elem_of_usage_stats_columns, elem_of_all_references.
    intros (r & (d & -> & Hd)%list_elem_of_fmap & Hc).
    unfold extract_columns_metadata in Hc. cbn in Hc.
    assert (forall key, key ∈ ["select"; "where"; "joins"; "groupby"; "orderby"] ->
              c ∉ default [] (d !! key)) as Hkey
      by (intros key Hkey; rewrite (H d key Hd Hkey); apply not_elem_of_nil).
    destruct Hc as [Hc|[Hc|[Hc|[Hc|Hc]]]]; revert Hc; apply Hkey;
      repeat (first [apply list_elem_of_here | apply list_elem_of_further]). }
  split; [done|].
  rewrite main_events. unfold partition_spec, partition_columns, merged_stats.
  rewrite Hstats. done.
Qed.

Lemma main_without_references_witness :
  (main (rt := runtime_of [])
     (extract_columns_metadata <$>
        [ {[ "having" := ["h"] ]} : gmap string (list string) ])).2 =
  [ Print "Recommended Partition Spec: ";
    Print "No suitable partition columns identified." ].
Proof.
  refine (proj2 (main_without_references (rt := runtime_of [])
            [ {[ "having" := ["h"] ]} : gmap string (list string) ] _ _)).
  - discriminate.
  - intros d key ->%list_elem_of_singleton Hkey.
    repeat (apply elem_of_cons in Hkey as [->|Hkey]);
      try (by apply elem_of_nil in Hkey); vm_compute; reflexivity.
Defined.

(** ** Reading the log and the output of the engine *)

Lemma concat_cons2 sep x y (l : list string) :
  String.concat sep (x :: y :: l) = x +:+ sep +:+ String.concat sep (y :: l).
Proof. reflexivity. Qed.

Lemma split_on_nonempty a s : split_on a s <> [].
Proof.
  destruct s as [|b s]; [done|]. cbn.
  destruct (decide _); [done|]. by destruct (split_on a s).
Qed.

Lemma split_on_cut a s : split_on a (String a s) = "" :: split_on a s.
Proof. cbn [split_on]. by rewrite decide_True. Qed.

Lemma split_on_keep a b s :
  b <> a -> split_on a (String b s) = glue (String b "") (split_on a s).
Proof.
  intros H. cbn [split_on]. rewrite decide_False by done.
  pose proof (split_on_nonempty a s). by destruct (split_on a s).
Qed.

(** Joining the pieces of a split with the separator gives the string
    back, and no piece holds the separator. *)
Lemma concat_split_on a s : String.concat (String a "") (split_on a s) = s.
Proof.
  induction s as [|b s IH]; [done|].
  pose proof (split_on_nonempty a s) as Hne.
  destruct (decide (b = a)) as [->|Hb].
  - rewrite split_on_cut. destruct (split_on a s) as [|w ws] eqn:Hs; [done|].
    rewrite concat_cons2, IH. done.
  - rewrite split_on_keep by done. destruct (split_on a s) as [|w ws]; [done|].
    cbn [glue]. destruct ws as [|w' ws].
    + cbn in *. by rewrite IH.
    + rewrite concat_cons2 in *. by rewrite append_assoc, IH.
Qed.

Lemma split_on_pieces s : Forall one_line (split_on newline s).
Proof.
  induction s as [|b s IH]; [by repeat constructor|].
  destruct (decide (b = newline)) as [->|Hb].
  - rewrite split_on_cut. by constructor.
  - rewrite split_on_keep by done. destruct IH as [|w ws Hw Hws]; [by repeat constructor|].
    cbn [glue]. constructor; [|done]. rewrite append_cons. by split.
Qed.

Lemma concat_last sep (l : list string) :
  l <> [] ->
  exists before, String.concat sep l = before +:+ List.last l "" /\
                 (before = "" \/ exists b, before = b +:+ sep).
Proof.
  induction l as [|x l IH]; [done|]. intros _. destruct l as [|y l].
  - exists "". by split; [|left].
  - destruct IH as (before & Heq & Hbefore); [done|].
    exists (x +:+ sep +:+ before). split.
    + rewrite concat_cons2, Heq. by rewrite !append_assoc.
    + right. destruct Hbefore as [->|[b ->]].
      * exists x. by rewrite append_nil_r.
      * exists (x +:+ sep +:+ b). by rewrite !append_assoc.
Qed.

(** The text that [get_column_cardinality] hands to [int] is the last line
    of the output once the white space at its ends is removed: it holds no
    line break, and the stripped output is that text, preceded by nothing
    or by text that ends with a line break. *)
Theorem last_line_is_last (output : string) :
  one_line (last_line output) /\
  exists before, strip output = before +:+ last_line output /\
                 (before = "" \/ exists b, before = b +:+ String newline "").
Proof.
  unfold last_line. split.
  - pose proof (split_on_pieces (strip output)) as H.
    pose proof (split_on_nonempty newline (strip output)) as Hne.
    induction H as [|w ws Hw Hws IH]; [done|].
    destruct ws as [|w' ws]; [done|]. by apply IH.
  - destruct (concat_last (String newline "") (split_on newline (strip output)))
      as (before & Heq & Hbefore); [apply split_on_nonempty|].
    rewrite concat_split_on in Heq. by exists before.
Qed.

Lemma lstrip_blank s : blank s -> lstrip s = "".
Proof.
  induction s as [|a s IH]; [done|]. cbn [blank lstrip]. intros [-> Hs]. by apply IH.
Qed.

Lemma strip_blank s : blank s -> strip s = "".
Proof. intros H. unfold strip. rewrite (lstrip_blank s) by done. reflexivity. Qed.

Lemma parse_logs_from {LogEntry} (json_loads : string -> option LogEntry) lines logs :
  fold_left (parse_line json_loads) lines logs = logs ++ omap json_loads lines.
Proof.
  revert logs. induction lines as [|line lines IH]; intros logs; cbn [fold_left].
  - by rewrite app_nil_r.
  - rewrite IH. unfold parse_line. cbn [omap list_omap].
    destruct (json_loads line); [by rewrite <- app_assoc | done].
Qed.

Lemma split_on_one_line l s :
  one_line l -> split_on newline (l +:+ s) = glue l (split_on newline s).
Proof.
  induction l as [|a l IH]; cbn [one_line].
  - intros _. change ("" +:+ s) with s.
    pose proof (split_on_nonempty newline s). by destruct (split_on newline s).
  - intros [Ha Hl]. rewrite append_cons, split_on_keep by done.
    by rewrite IH, glue_glue.
Qed.

Lemma split_on_lines (lines : list string) :
  lines <> [] -> Forall one_line lines ->
  split_on newline (String.concat (String newline "") lines) = lines.
Proof.
  intros Hne H. induction H as [|x l Hx Hl IH]; [done|]. destruct l as [|y l].
  - cbn [String.concat]. rewrite <- (append_nil_r x) at 1.
    rewrite split_on_one_line by done. cbn. by rewrite append_nil_r.
  - rewrite concat_cons2, split_on_one_line by done.
    rewrite append_cons. change ("" +:+ ?s) with s. rewrite split_on_cut, IH by done.
    cbn. by rewrite append_nil_r.
Qed.

(** A log that holds nothing but white space gives no entry ([json.loads]
    rejects the empty string). *)
Theorem parse_logs_blank {LogEntry} (json_loads : string -> option LogEntry)
    (log_content : string) :
  json_loads "" = None ->
  blank log_content ->
  parse_logs json_loads log_content = [].
Proof.
  intros Hempty Hblank. unfold parse_logs. rewrite strip_blank by done.
  cbn. unfold parse_line. by rewrite Hempty.
Qed.

Lemma parse_logs_blank_witness :
  parse_logs decimal_int (String " " (String newline (String " " ""))) = [].
Proof.
  apply (parse_logs_blank decimal_int (String " " (String newline (String " " "")))).
  - reflexivity.
  - cbn. repeat split; reflexivity.
Defined.

(** For a log without white space at its ends, the entries are the lines
    that decode, in the order of the lines: a line that does not decode is
    dropped and the lines after it are still read. *)
Theorem parse_logs_lines {LogEntry} (json_loads : string -> option LogEntry)
    (lines : list string) :
  lines <> [] ->
  Forall one_line lines ->
  strip (String.concat (String newline "") lines)
    = String.concat (String newline "") lines ->
  parse_logs json_loads (String.concat (String newline "") lines)
    = omap json_loads lines.
Proof.
  intros Hne Hlines Hstrip. unfold parse_logs.
  by rewrite Hstrip, split_on_lines, parse_logs_from.
Qed.

Lemma parse_logs_lines_witness :
  parse_logs decimal_int (String.concat (String newline "") ["1"; "{"; "30"])
  = [1%Z; 30%Z].
Proof.
  apply (parse_logs_lines decimal_int ["1"; "{"; "30"]).
  - discriminate.
  - repeat constructor; discriminate.
  - vm_compute. reflexivity.
Defined.

(** ** Invariants of the counters and of the frame *)

Lemma counter_keys_NoDup_incr elem c :
  NoDup (counter_keys c) -> NoDup (counter_keys (counter_incr elem c)).
Proof.
  rewrite counter_keys_incr_order. intros H. cbn [unique_from].
  destruct (decide (elem ∈ counter_keys c)); [by rewrite app_nil_r|].
  apply NoDup_app. split; [done|]. split; [|apply NoDup_singleton].
  by intros x Hx ->%list_elem_of_singleton.
Qed.

(** A counter filled from empty by [update] has each element of the
    iterable as a key once, with the number of its occurrences as count
    (never 0), and no other key.  Two updates in a row are one update with
    the two iterables in a row. *)
Theorem counter_update_counts (l l' : list string) (k : string) :
  NoDup (counter_keys (counter_update [] l)) /\
  counter_get (counter_update [] l) k =
    (if decide (k ∈ l) then Some (occurrences k l) else None) /\
  (k ∈ l -> 0 < occurrences k l) /\
  counter_update (counter_update [] l) l' = counter_update [] (l ++ l').
Proof.
  split; [|split; [|split]].
  - unfold counter_update. generalize (NoDup_nil_2 (A := string)).
    change (@nil string) with (counter_keys []) at 1. generalize (@nil (string * nat)).
    induction l as [|x l IH]; intros c Hc; [done|].
    cbn [fold_left]. by apply IH, counter_keys_NoDup_incr.
  - pose proof (cell_update [] l k) as Hcell.
    pose proof (counter_keys_update [] l k) as Hkeys.
    rewrite counter_keys_get in Hkeys. unfold cell in Hcell. cbn in Hcell.
    destruct (decide (k ∈ l)) as [Hin|Hnin].
    + destruct (proj2 Hkeys (or_introl Hin)) as [n Hn]. rewrite Hn in Hcell |- *.
      cbn in Hcell. by rewrite Hcell.
    + destruct (counter_get (counter_update [] l) k) as [n|] eqn:Hn; [|done].
      destruct (proj1 Hkeys (ex_intro _ n eq_refl)) as [?|?%elem_of_nil]; done.
  - apply occurrences_pos.
  - symmetry. apply counter_update_app.
Qed.

(** No row of [usage_stats] is all zeros: the column of a row is referenced
    at least once in some role. *)
Theorem usage_stats_rows_nonzero (parsed_columns : list ColumnUsageRecord) (u : UsageRow) :
  u ∈ usage_stats parsed_columns ->
  0 < select u + where_ u + join u + group_by u + order_by u.
Proof.
  intros [Hin ->]%elem_of_usage_stats. unfold usage_row_of. cbn.
  unfold all_references in Hin. rewrite !elem_of_app in Hin.
  rewrite <- !occurrences_pos in Hin. lia.
Qed.

Lemma usage_stats_rows_nonzero_witness : 0 < 2 + 0 + 1 + 0 + 0.
Proof.
  apply (usage_stats_rows_nonzero (log_of [("a", 2)] [] [("a", 1)] [] [])
           {| column := "a"; select := 2; where_ := 0; join := 1;
              group_by := 0; order_by := 0 |}).
  vm_compute. apply list_elem_of_here.
Defined.

Lemma append_cancel_r s s' t : s +:+ t = s' +:+ t -> s = s'.
Proof.
  intros H. apply (f_equal String.rev) in H. rewrite !rev_append in H.
  apply (inj (String.append _)) in H.
  rewrite <- (rev_involutive s), <- (rev_involutive s'). by rewrite H.
Qed.

Lemma cardinality_query_inj table c c' :
  cardinality_query table c = cardinality_query table c' -> c = c'.
Proof.
  unfold cardinality_query. intros H.
  apply (inj (String.append _)) in H. by apply append_cancel_r in H.
Qed.

(** No count-distinct query is sent twice in a run: the commands of Step 4
    are pairwise distinct. *)
Theorem cardinality_queries_distinct (parsed_columns : list ColumnUsageRecord) :
  NoDup ((fun c => ["trino"; "--execute"; cardinality_query TABLE_NAME c])
           <$> (column <$> usage_stats parsed_columns)).
Proof.
  apply NoDup_fmap_2; [|apply usage_stats_NoDup].
  intros c c' H. apply (f_equal (fun argv => List.nth 2 argv "")) in H.
  cbn [List.nth] in H. by apply cardinality_query_inj in H.
Qed.
